(** * CodeAB backup engine (backup.py): model and verification

    The development follows backup.py.  The Python library calls the
    program makes (posixpath.join, os.path.exists, os.makedirs,
    fnmatch.filter, shutil.ignore_patterns, shutil.copytree, the
    [schedule] package, threading.Thread) are modelled in modules named
    after them, over a small POSIX file tree; the program's own functions
    ([create_default_settings], [load_settings], [create_backup] and the
    methods of [BackupApp]) keep their names.

    What the model fixes:
    - a file tree has regular files (bytes, a read permission),
      directories (a list permission, entries in scandir order) and
      symbolic links; path resolution follows links, at most 40 nested;
    - names are byte strings; a pattern is matched against their
      characters, the bytes read as UTF-8 the way os.fsdecode reads them;
    - a tree copy is worked out on the tree as it is at the call, while
      copytree makes the destination first and reads as it goes: the
      statements on what a copy holds are for a destination outside what
      the copy reads ([shutil.outside]); write permission is not modelled;
    - time is counted in seconds; datetime.now() is the clock of the
      application state, and the formatted time stamp of a run is an
      argument of [create_backup];
    - the log is the list of messages handed to log_message; the log
      file and the widgets are left out, and so is save_settings; the
      methods of the settings tab return the message they log beside the
      new state;
    - a call of a method of BackupApp and the body of the backup thread
      are each one step; the scheduler thread moves statement by
      statement through its loop;
    - of the library calls these are left out: a path string is
      normalised lexically before it is resolved; the OSError of
      os.makedirs carries the path it was called with; log_message does
      not fail, and every project of the settings has its name and its
      path. *)

From Stdlib Require Import List String Ascii Bool Arith NArith ZArith Lia.
From Stdlib Require Import Sorted Permutation.
Import ListNotations.
Open Scope string_scope.
Open Scope list_scope.
#[local] Set Warnings "-register-all".

(* ===================================================================== *)
(** ** Path strings (posixpath) *)
(* ===================================================================== *)

Module posixpath.

Definition sep : ascii := "/"%char.

Definition isabs (p : string) : bool :=
match p with
| String c _ => Ascii.eqb c sep
| EmptyString => false
end.

Fixpoint endswith_sep (p : string) : bool :=
match p with
| EmptyString => false
| String c EmptyString => Ascii.eqb c sep
| String _ p' => endswith_sep p'
end.

(** posixpath.join(a, b): an absolute [b] replaces [a]; otherwise [b] is
    appended, with a separator unless [a] is empty or already ends in one. *)
Definition join (a b : string) : string :=
if isabs b then b
else if (String.eqb a "" || endswith_sep a)%bool then (a ++ b)%string
else (a ++ "/" ++ b)%string.

(** The components of a path string: the pieces between separators. *)
Fixpoint components (p : string) : list string :=
match p with
| EmptyString => [EmptyString]
| String c p' =>
    if Ascii.eqb c sep then EmptyString :: components p'
    else match components p' with
         | [] => [String c EmptyString]
         | h :: t => String c h :: t
         end
end.

(** Lexical normalisation onto a stack of names already resolved: empty
    and "." components vanish, ".." drops the last name. *)
Fixpoint norm (stack : list string) (cs : list string) : list string :=
match cs with
| [] => stack
| c :: cs' =>
    if (String.eqb c "" || String.eqb c ".")%bool then norm stack cs'
    else if String.eqb c ".." then norm (removelast stack) cs'
    else norm (stack ++ [c]) cs'
end.

End posixpath.

(* ===================================================================== *)
(** ** Characters of a name (UTF-8) *)
(* ===================================================================== *)

Module utf8.

Definition between (lo hi x : N) : bool := ((lo <=? x) && (x <=? hi))%N.

(** A continuation byte, 80..BF. *)
Definition continuation (x : N) : bool := between 128 191 x.

(** The well-formed sequences of two, three and four bytes. *)
Definition two_bytes (x y : N) : bool :=
between 194 223 x && continuation y.

Definition three_bytes (x y z : N) : bool :=
(((x =? 224)%N && between 160 191 y)
 || (between 225 236 x && continuation y)
 || ((x =? 237)%N && between 128 159 y)
 || (between 238 239 x && continuation y))
&& continuation z.

Definition four_bytes (x y z u : N) : bool :=
(((x =? 240)%N && between 144 191 y)
 || (between 241 243 x && continuation y)
 || ((x =? 244)%N && between 128 143 y))
&& continuation z && continuation u.

(** A byte that belongs to no well-formed sequence stands for the lone
    surrogate U+DC00 + byte (the surrogateescape error handler). *)
Definition escape (x : N) : N := (56320 + x)%N.

(** os.fsdecode(name): the characters (code points) of a file name, as
    Python sees them when the file system encoding is UTF-8. *)
Fixpoint decode (s : list ascii) : list N :=
match s with
| [] => []
| a :: s1 =>
    let x := N_of_ascii a in
    if (x <? 128)%N then x :: decode s1
    else
      match s1 with
      | [] => [escape x]
      | b :: s2 =>
          let y := N_of_ascii b in
          if two_bytes x y then ((x - 192) * 64 + (y - 128))%N :: decode s2
          else
            match s2 with
            | [] => escape x :: decode s1
            | c :: s3 =>
                let z := N_of_ascii c in
                if three_bytes x y z then
                  ((x - 224) * 4096 + (y - 128) * 64 + (z - 128))%N
                    :: decode s3
                else
                  match s3 with
                  | [] => escape x :: decode s1
                  | d :: s4 =>
                      let u := N_of_ascii d in
                      if four_bytes x y z u then
                        ((x - 240) * 262144 + (y - 128) * 4096
                         + (z - 128) * 64 + (u - 128))%N :: decode s4
                      else escape x :: decode s1
                  end
            end
      end
end.

(** The characters of a string. *)
Definition chars (s : string) : list N := decode (list_ascii_of_string s).

End utf8.

(* ===================================================================== *)
(** ** Shell patterns (fnmatch) *)
(* ===================================================================== *)

Module fnmatch.

(** A translated pattern: fnmatch.translate turns the pattern into a
    regular expression made of these four pieces.  Characters are code
    points. *)
Inductive token : Type :=
| Star
| AnyChar
| Lit (c : N)
| CharSet (negate : bool) (ranges : list (N * N)).

Definition star : N := 42.
Definition question : N := 63.
Definition lbracket : N := 91.
Definition rbracket : N := 93.
Definition bang : N := 33.
Definition hyphen : N := 45.

(** Everything up to the first "]" and what follows it. *)
Fixpoint until_rbracket (s : list N) : option (list N * list N) :=
match s with
| [] => None
| c :: s' =>
    if (c =? rbracket)%N then Some ([], s')
    else match until_rbracket s' with
         | Some (body, rest) => Some (c :: body, rest)
         | None => None
         end
end.

(** The text of a bracket expression, given what follows "[": an optional
    "!", then an optional "]" taken literally, then everything up to the
    closing "]".  [None] when the bracket is never closed. *)
Definition bracket_body (s : list N) : option (bool * list N * list N) :=
let '(neg, s1) :=
  match s with
  | c :: s' => if (c =? bang)%N then (true, s') else (false, s)
  | [] => (false, s)
  end in
let '(first, s2) :=
  match s1 with
  | c :: s' => if (c =? rbracket)%N then ([c], s') else ([], s1)
  | [] => ([], s1)
  end in
match until_rbracket s2 with
| Some (body, rest) => Some (neg, first ++ body, rest)
| None => None
end.

(** The members of a bracket expression: [x-y] is a range when a character
    follows the hyphen, any other character stands for itself. *)
Fixpoint ranges_of (fuel : nat) (stuff : list N) : list (N * N) :=
match fuel with
| O => []
| S fuel' =>
    match stuff with
    | [] => []
    | x :: h :: y :: stuff' =>
        if (h =? hyphen)%N then (x, y) :: ranges_of fuel' stuff'
        else (x, x) :: ranges_of fuel' (h :: y :: stuff')
    | x :: stuff' => (x, x) :: ranges_of fuel' stuff'
    end
end.

Fixpoint translate_go (fuel : nat) (pat : list N) : list token :=
match fuel with
| O => []
| S fuel' =>
    match pat with
    | [] => []
    | c :: pat' =>
        if (c =? star)%N then Star :: translate_go fuel' pat'
        else if (c =? question)%N then AnyChar :: translate_go fuel' pat'
        else if (c =? lbracket)%N then
          match bracket_body pat' with
          | Some (neg, stuff, rest) =>
              CharSet neg (ranges_of (List.length stuff) stuff)
                :: translate_go fuel' rest
          | None => Lit c :: translate_go fuel' pat'
          end
        else Lit c :: translate_go fuel' pat'
    end
end.

Definition translate (pat : string) : list token :=
let p := utf8.chars pat in translate_go (List.length p) p.

Definition in_range (c : N) (r : N * N) : bool :=
((fst r <=? c) && (c <=? snd r))%N.

(** Full match of a name against a translated pattern. *)
Fixpoint matches (ts : list token) (s : list N) : bool :=
match ts with
| [] => match s with [] => true | _ => false end
| Star :: ts' =>
    (fix star (s : list N) : bool :=
       matches ts' s
       || match s with [] => false | _ :: s' => star s' end) s
| AnyChar :: ts' =>
    match s with [] => false | _ :: s' => matches ts' s' end
| Lit c :: ts' =>
    match s with [] => false | x :: s' => (x =? c)%N && matches ts' s' end
| CharSet neg rs :: ts' =>
    match s with
    | [] => false
    | x :: s' => xorb neg (existsb (in_range x) rs) && matches ts' s'
    end
end.

(** fnmatch.fnmatchcase(name, pat). *)
Definition fnmatchcase (name pat : string) : bool :=
matches (translate pat) (utf8.chars name).

(** fnmatch.filter(names, pat) on POSIX, where normcase is the identity. *)
Definition filter (names : list string) (pat : string) : list string :=
List.filter (fun name => fnmatchcase name pat) names.

End fnmatch.

(** ** Shell patterns as the documentation of fnmatch words them *)

Module glob.

Import fnmatch.




End glob.

(* ===================================================================== *)
(** ** The file tree and the [os] calls *)
(* ===================================================================== *)

Module os.

Inductive errno : Type := ENOENT | EEXIST | ENOTDIR | EACCES | ELOOP.

(** A file tree.  A regular file has its bytes and a read permission; a
    directory has a list permission and its entries in scandir order; a
    symbolic link has its target path. *)
Inductive node : Type :=
| File (data : list Byte.byte) (readable : bool)
| Link (target : string)
| Dir (listable : bool) (entries : list (string * node)).

Fixpoint lookup (c : string) (es : list (string * node)) : option node :=
match es with
| [] => None
| (d, n) :: es' => if String.eqb c d then Some n else lookup c es'
end.

(** The node at a path of plain names, no link followed. *)
Fixpoint get (n : node) (p : list string) : option node :=
match p with
| [] => Some n
| c :: p' =>
    match n with
    | Dir _ es =>
        match lookup c es with
        | Some m => get m p'
        | None => None
        end
    | _ => None
    end
end.

(** The state of the machine the program runs on: the tree under "/" and
    the working directory relative paths start from. *)
Record filesystem : Type := mkfs { root : node; cwd : list string }.

(** Outcome of resolving a path: the resolved location and its node, or
    the directory where resolution stopped and the names still missing
    under it, or the error. *)
Inductive resolved : Type :=
| Found (phys : list string) (n : node)
| Missing (parent : list string) (todo : list string)
| Failed (e : errno).

(** SYMLOOP_MAX: how many nested links a resolution follows. *)
Definition symloop_max : nat := 40.

(** The names a link at directory [cur] with target [t] stands for. *)
Definition link_path (cur : list string) (t : string) : list string :=
posixpath.norm (if posixpath.isabs t then [] else cur) (posixpath.components t).

(** Path resolution from directory node [n] at location [cur], following
    every link met; [b] bounds the nesting of links. *)
Fixpoint walk (b : nat) (rt : node) {struct b}
  : node -> list string -> list string -> resolved :=
fix go (n : node) (cur todo : list string) {struct todo} : resolved :=
  match todo with
  | [] => Found cur n
  | c :: rest =>
      match n with
      | Dir _ es =>
          match lookup c es with
          | None => Missing cur (c :: rest)
          | Some (Link t) =>
              match b with
              | O => Failed ELOOP
              | S b' =>
                  if String.eqb t "" then Failed ENOENT
                  else match walk b' rt rt [] (link_path cur t) with
                       | Found phys m => go m phys rest
                       | Missing _ _ => Failed ENOENT
                       | Failed e => Failed e
                       end
              end
          | Some m => go m (cur ++ [c]) rest
          end
      | File _ _ => Failed ENOTDIR
      | Link _ => Failed ELOOP
      end
  end.

(** Resolution of a path string; the empty string names nothing. *)
Definition resolve (fs : filesystem) (p : string) : resolved :=
if String.eqb p "" then Failed ENOENT
else walk symloop_max (root fs) (root fs) []
       (posixpath.norm (if posixpath.isabs p then [] else cwd fs)
                       (posixpath.components p)).

(** os.path.exists(p): true when the path resolves, false on any error. *)
Definition path_exists (fs : filesystem) (p : string) : bool :=
match resolve fs p with
| Found _ _ => true
| _ => false
end.

(** A fresh chain of directories named [todo], ending in [leaf]. *)
Fixpoint chain (todo : list string) (leaf : node) : node :=
match todo with
| [] => leaf
| c :: rest => Dir true [(c, chain rest leaf)]
end.

Fixpoint update (c : string) (f : node -> node) (es : list (string * node))
  : list (string * node) :=
match es with
| [] => []
| (d, n) :: es' =>
    if String.eqb c d then (d, f n) :: es' else (d, n) :: update c f es'
end.

(** Add entry [(c, m)] at the end of the directory at location [cur]. *)
Fixpoint add_at (n : node) (cur : list string) (c : string) (m : node) : node :=
match cur with
| [] =>
    match n with
    | Dir l es => Dir l (es ++ [(c, m)])
    | _ => n
    end
| d :: cur' =>
    match n with
    | Dir l es => Dir l (update d (fun k => add_at k cur' c m) es)
    | _ => n
    end
end.

(** Create the missing directories [todo] under [parent], the last one
    holding [content]. *)
Definition create (fs : filesystem) (parent todo : list string)
  (content : list (string * node)) : filesystem :=
match todo with
| [] => fs
| c :: rest =>
    mkfs (add_at (root fs) parent c (chain rest (Dir true content))) (cwd fs)
end.

(** os.makedirs(p) with exist_ok=False: every missing directory of the
    path is created; FileExistsError when the path already resolves. *)
Definition makedirs (fs : filesystem) (p : string) : filesystem + errno :=
match resolve fs p with
| Found _ _ => inr EEXIST
| Missing parent todo => inl (create fs parent todo [])
| Failed e => inr e
end.

(** Every name in the tree, at every depth, satisfies [ok]. *)
Fixpoint all_names (ok : string -> bool) (n : node) : bool :=
match n with
| Dir _ es => forallb (fun '(c, k) => ok c && all_names ok k) es
| _ => true
end.



(** [ext n n']: [n'] is [n] with entries added to some of its
    directories; every path of [n] leads in [n'] to a node of the same
    kind, files and links unchanged. *)
Inductive ext : node -> node -> Prop :=
| ext_file d r : ext (File d r) (File d r)
| ext_link t : ext (Link t) (Link t)
| ext_dir l es es' :
    (forall c m, lookup c es = Some m ->
                 exists m', lookup c es' = Some m' /\ ext m m') ->
    ext (Dir l es) (Dir l es').

Definition extends (fs fs' : filesystem) : Prop :=
ext (root fs) (root fs') /\ cwd fs' = cwd fs.

(** [prefix_of a b]: the location [a] is [b] or lies above it. *)
Fixpoint prefix_of (a b : list string) : bool :=
match a, b with
| [], _ => true
| x :: a', y :: b' => String.eqb x y && prefix_of a' b'
| _ :: _, [] => false
end.

End os.

(* ===================================================================== *)
(** ** Exceptions *)
(* ===================================================================== *)

(** One failed entry of a tree copy: (srcname, dstname, str(why)), the
    reason kept as the errno and file name of the OSError. *)
Definition copy_error : Type := string * string * (os.errno * string).

(** The exceptions that reach a handler of backup.py: OSError with its
    subclasses told apart by errno, and shutil.Error with its list. *)
Inductive exn : Type :=
| OSError (e : os.errno) (filename : string)
| ShutilError (errors : list copy_error).

(* ===================================================================== *)
(** ** Tree copy (shutil) *)
(* ===================================================================== *)

Module shutil.

Import os.

(** shutil.ignore_patterns( *patterns)(path, names): the names matched by
    some pattern (a set; membership is all that is used). *)
Definition ignore_patterns (patterns : list string) (names : list string)
  : list string :=
flat_map (fun pattern => fnmatch.filter names pattern) patterns.

Definition mem (name : string) (names : list string) : bool :=
existsb (String.eqb name) names.

(** What copying one entry leaves at its destination name, and the
    failures collected on the way. *)
Definition copied : Type := option node * list copy_error.

Definition failed (srcname dstname : string) (e : errno) : copied :=
(None, [(srcname, dstname, (e, srcname))]).

(** copy2 of a regular file: the bytes, or PermissionError. *)
Definition copy2 (srcname dstname : string) (data : list Byte.byte)
  (readable : bool) : copied :=
if readable then (Some (File data true), []) else failed srcname dstname EACCES.

(** The loop of _copytree over the entries of one directory, with
    symlinks=False: an ignored name is skipped, a directory is copied
    recursively, a link is followed to what it points to, a regular file
    is copied with copy2; a failure of one entry is appended to the error
    list and the loop goes on.  [b] bounds the links followed on the way
    down, [cur] is the location of the directory being read. *)
Fixpoint copy_node (b : nat) (rt : node) (patterns : list string) {struct b}
  : string -> string -> list string -> node -> copied :=
fix on_node (src dst : string) (cur : list string) (n : node) {struct n}
  : copied :=
  match n with
  | File data readable => copy2 src dst data readable
  | Dir listable entries =>
      if listable then
        let ignored_names := ignore_patterns patterns (map fst entries) in
        let '(kept, errors) :=
          (fix on_entries (es : list (string * node))
             : list (string * node) * list copy_error :=
             match es with
             | [] => ([], [])
             | (name, k) :: es' =>
                 let rest := on_entries es' in
                 if mem name ignored_names then rest
                 else
                   let r := on_node (posixpath.join src name)
                                    (posixpath.join dst name)
                                    (cur ++ [name]) k in
                   (match fst r with
                    | Some k' => (name, k') :: fst rest
                    | None => fst rest
                    end,
                    snd r ++ snd rest)
             end) entries in
        (Some (Dir true kept), errors)
      else failed src dst EACCES
  | Link t =>
      match b with
      | O => failed src dst ELOOP
      | S b' =>
          if String.eqb t "" then failed src dst ENOENT
          else match walk b' rt rt [] (link_path (removelast cur) t) with
               | Found phys m => copy_node b' rt patterns src dst phys m
               | Missing _ _ => failed src dst ENOENT
               | Failed e => failed src dst e
               end
      end
  end.

(** The loop of [copy_node] over the entries of one directory, by name:
    [ignored_names] is what the ignore callback returned for it. *)
Fixpoint copy_entries (b : nat) (rt : node)
  (patterns ignored_names : list string) (src dst : string)
  (cur : list string) (es : list (string * node))
  : list (string * node) * list copy_error :=
match es with
| [] => ([], [])
| (name, k) :: es' =>
    let rest := copy_entries b rt patterns ignored_names src dst cur es' in
    if mem name ignored_names then rest
    else
      let r := copy_node b rt patterns (posixpath.join src name)
                         (posixpath.join dst name) (cur ++ [name]) k in
      (match fst r with
       | Some k' => (name, k') :: fst rest
       | None => fst rest
       end,
       snd r ++ snd rest)
end.

(** A name is ignored when some pattern matches it. *)
Definition name_ignored (patterns : list string) (name : string) : bool :=
existsb (fnmatch.fnmatchcase name) patterns.

(** shutil.copytree(src, dst, ignore=ignore_patterns( *patterns)) with the
    defaults symlinks=False, copy_function=copy2, dirs_exist_ok=False:
    os.scandir(src) first, then os.makedirs(dst), then the loop.  The
    result is the new tree and either the returned dst or the exception.
    The copy is worked out on the source as it stands at the call; it
    is what copytree does when the destination lies outside what the
    copy reads ([outside], below).  Making the destination fails only
    when it exists or cannot be resolved: write permission is not
    modelled. *)
Definition copytree (fs : filesystem) (src dst : string)
  (patterns : list string) : filesystem * (string + exn) :=
match resolve fs src with
| Found phys (Dir true entries) =>
    match resolve fs dst with
    | Found _ _ => (fs, inr (OSError EEXIST dst))
    | Missing parent todo =>
        match copy_node symloop_max (root fs) patterns src dst phys
                        (Dir true entries) with
        | (Some (Dir _ kept), errors) =>
            (create fs parent todo kept,
             match errors with
             | [] => inl dst
             | _ => inr (ShutilError errors)
             end)
        | (_, errors) => (fs, inr (ShutilError errors))
        end
    | Failed e => (fs, inr (OSError e dst))
    end
| Found _ (Dir false _) => (fs, inr (OSError EACCES src))
| Found _ _ => (fs, inr (OSError ENOTDIR src))
| Missing _ _ => (fs, inr (OSError ENOENT src))
| Failed e => (fs, inr (OSError e src))
end.

(** [outside parent b rt patterns cur n]: the copy of [n] reads nothing
    that making directories under [parent] changes.  It lists no
    directory at [parent] or above it, and no link it follows is left
    dangling in such a directory.  copytree makes the destination first
    and reads the source as it goes; where this holds for the directory
    the destination is made in, what it reads is what was there at the
    call. *)
Fixpoint outside (parent : list string) (b : nat) (rt : node)
  (patterns : list string) {struct b} : list string -> node -> bool :=
fix on_node (cur : list string) (n : node) {struct n} : bool :=
  match n with
  | File _ _ => true
  | Dir listable entries =>
      if listable then
        let ignored_names := ignore_patterns patterns (map fst entries) in
        negb (prefix_of cur parent)
        && (fix on_entries (es : list (string * node)) : bool :=
              match es with
              | [] => true
              | (name, k) :: es' =>
                  (if mem name ignored_names then true
                   else on_node (cur ++ [name]) k)
                  && on_entries es'
              end) entries
      else true
  | Link t =>
      match b with
      | O => true
      | S b' =>
          if String.eqb t "" then true
          else match walk b' rt rt [] (link_path (removelast cur) t) with
               | Found phys m => outside parent b' rt patterns phys m
               | Missing stop _ => negb (prefix_of stop parent)
               | Failed ENOENT => false
               | Failed _ => true
               end
      end
  end.

End shutil.

(* ===================================================================== *)
(** ** Settings, log messages and the world a run acts on *)
(* ===================================================================== *)

(** One element of settings["projects"]; 'exclude_folders' may be absent
    (it is read with .get and a default). *)
Record Project : Type := mkProject {
  name : string;
  path : string;
  exclude_folders : option (list string)
}.

(** The settings dictionary with its three required keys. *)
Record Settings : Type := mkSettings {
  backup_interval_minutes : Z;
  backup_destination_folder : string;
  projects : list Project
}.

(** The messages handed to the log, one constructor per message text of
    backup.py, carrying what the text interpolates. *)
Inductive message : Type :=
| BackupStarting                                   (* line 75 *)
| PathNotFound (project_path : string)             (* line 89 *)
| ProjectStarting (project_name : string)          (* line 94 *)
| ProjectDone (project_name : string)              (* line 102 *)
| ProjectError (project_name : string) (e : exn)   (* line 104 *)
| BackupDone (backup_base_path : string)           (* line 106 *)
| BackupError (e : exn)                            (* line 109 *)
| IntervalChanged (interval : Z)                   (* line 333 *)
| InvalidInterval                                  (* lines 336, 338 *)
| ManualRequested                                  (* line 425 *)
| AlreadyRunning                                   (* line 427 *)
| Closing.                                         (* line 467 *)

(** What a run reads and writes: the file tree and the log so far. *)
Record world : Type := mkWorld {
  fs : os.filesystem;
  log : list message
}.

(** Statements of backup.py: they act on the world and either return a
    value or raise; what was done before a raise stays done. *)
Inductive outcome (A : Type) : Type :=
| Return (a : A)
| Raise (e : exn).

Arguments Return {A} a.
Arguments Raise {A} e.

Definition M (A : Type) : Type := world -> outcome A * world.

Definition ret {A : Type} (a : A) : M A := fun w => (Return a, w).

Definition raise {A : Type} (e : exn) : M A := fun w => (Raise e, w).

Definition bind {A B : Type} (c : M A) (k : A -> M B) : M B :=
fun w =>
  match c w with
  | (Return a, w') => k a w'
  | (Raise e, w') => (Raise e, w')
  end.

(** try: body / except Exception as e: handler(e). *)
Definition try_except {A : Type} (body : M A) (handler : exn -> M A) : M A :=
fun w =>
  match body w with
  | (Return a, w') => (Return a, w')
  | (Raise e, w') => handler e w'
  end.

Declare Scope python_scope.
Delimit Scope python_scope with py.
Notation "x <- c ;; k" := (bind c (fun x => k))
  (at level 61, c at next level, right associativity) : python_scope.
Notation "c ;; k" := (bind c (fun _ => k))
  (at level 61, right associativity) : python_scope.
Open Scope python_scope.

(** for x in xs: body(x). *)
Fixpoint for_each {A : Type} (xs : list A) (body : A -> M unit) : M unit :=
match xs with
| [] => ret tt
| x :: xs' => body x ;; for_each xs' body
end.

(** The [os] and [shutil] calls as statements. *)
Definition os_path_exists (p : string) : M bool :=
fun w => (Return (os.path_exists (fs w) p), w).

Definition os_makedirs (p : string) : M unit :=
fun w =>
  match os.makedirs (fs w) p with
  | inl fs' => (Return tt, mkWorld fs' (log w))
  | inr e => (Raise (OSError e p), w)
  end.

Definition shutil_copytree (src dst : string) (patterns : list string)
  : M string :=
fun w =>
  match shutil.copytree (fs w) src dst patterns with
  | (fs', inl d) => (Return d, mkWorld fs' (log w))
  | (fs', inr e) => (Raise e, mkWorld fs' (log w))
  end.

(** The log callback the application passes: the message is appended to
    the log (BackupApp.log_message, lines 279-298). *)
Definition log_message (msg : message) : M unit :=
fun w => (Return tt, mkWorld (fs w) (log w ++ [msg])).

(* ===================================================================== *)
(** ** create_backup (lines 71-110) *)
(* ===================================================================== *)

(** project.get('exclude_folders', []). *)
Definition exclude_patterns_of (project : Project) : list string :=
match exclude_folders project with
| Some l => l
| None => []
end.

(** The body of the loop over settings["projects"] (lines 84-104). *)
Definition backup_project (log_callback : message -> M unit)
  (backup_base_path : string) (project : Project) : M unit :=
let project_name := name project in
let project_path := path project in
let exclude_patterns := exclude_patterns_of project in
found <- os_path_exists project_path ;;
if negb found then
  log_callback (PathNotFound project_path)
else
  let destination_path := posixpath.join backup_base_path project_name in
  log_callback (ProjectStarting project_name) ;;
  try_except
    (shutil_copytree project_path destination_path exclude_patterns ;;
     log_callback (ProjectDone project_name))
    (fun e => log_callback (ProjectError project_name e)).

(** Lines 80-81: the destination folder is created when it is missing. *)
Definition ensure_destination (destination : string) : M unit :=
found <- os_path_exists destination ;;
if negb found then os_makedirs destination else ret tt.

(** create_backup(settings, log_callback); [timestamp_str] is what
    datetime.now().strftime('%Y-%m-%d_%HH-%MM-%SS') gives at line 77. *)
Definition create_backup (timestamp_str : string) (settings : Settings)
  (log_callback : message -> M unit) : M (bool * option string) :=
log_callback BackupStarting ;;
try_except
  (let backup_base_path :=
     posixpath.join (backup_destination_folder settings)
                    ("backup_" ++ timestamp_str)%string in
   ensure_destination (backup_destination_folder settings) ;;
   for_each (projects settings)
            (backup_project log_callback backup_base_path) ;;
   log_callback (BackupDone backup_base_path) ;;
   ret (true, Some backup_base_path))
  (fun e =>
     log_callback (BackupError e) ;;
     ret (false, None)).

(* ===================================================================== *)
(** ** The settings file (lines 24-60) *)
(* ===================================================================== *)

(** What json.load returns. *)
Inductive json : Type :=
| JNull
| JBool (b : bool)
| JNumber (z : Z)
| JString (s : string)
| JArray (items : list json)
| JObject (members : list (string * json)).

(** settings.json as open and json.load find it: not there; there but
    open or decoding fails with something other than a JSON syntax error;
    not JSON (JSONDecodeError); or a JSON document. *)
Inductive settings_file : Type :=
| Absent
| Unreadable
| Malformed
| Stored (v : json).

Inductive dialog : Type := ShowError | ShowWarning.

(** The surroundings of start-up: the file, whether it can be opened for
    writing, and the message boxes shown so far. *)
Record disk : Type := mkDisk {
  file : settings_file;
  writable : bool;
  dialogs : list dialog
}.

(** A start-up function either returns or leaves through sys.exit. *)
Inductive startup (A : Type) : Type :=
| Loaded (a : A)
| SysExit (code : Z).

Arguments Loaded {A} a.
Arguments SysExit {A} code.

Definition default_settings : json :=
JObject [("backup_interval_minutes", JNumber 10);
         ("backup_destination_folder", JString "");
         ("projects", JArray [])].

Definition show (d : dialog) (dk : disk) : disk :=
mkDisk (file dk) (writable dk) (dialogs dk ++ [d]).

(** create_default_settings(): the defaults are written and returned;
    when writing fails an error box is shown and the program exits. *)
Definition create_default_settings (dk : disk) : startup json * disk :=
if writable dk then
  (Loaded default_settings,
   mkDisk (Stored default_settings) (writable dk) (dialogs dk))
else (SysExit 1, show ShowError dk).

Fixpoint has_key (key : string) (members : list (string * json)) : bool :=
match members with
| [] => false
| (k, _) :: members' => String.eqb key k || has_key key members'
end.

Fixpoint substring_of (key s : string) : bool :=
String.prefix key s
|| match s with
   | EmptyString => false
   | String _ s' => substring_of key s'
   end.

(** Python's [key in v] for a string key: membership among the keys of a
    dict, among the elements of a list, as a substring of a str;
    TypeError ([None]) for None, bool and numbers. *)
Definition py_in (key : string) (v : json) : option bool :=
match v with
| JObject members => Some (has_key key members)
| JArray items =>
    Some (existsb (fun x => match x with
                            | JString s => String.eqb key s
                            | _ => false
                            end) items)
| JString s => Some (substring_of key s)
| JNull | JBool _ | JNumber _ => None
end.

(** Lines 49-51: [a not in s or b not in s or c not in s], left to right
    with short circuit; [None] when a membership test raises. *)
Definition required_missing (v : json) : option bool :=
match py_in "backup_interval_minutes" v with
| None => None
| Some false => Some true
| Some true =>
    match py_in "backup_destination_folder" v with
    | None => None
    | Some false => Some true
    | Some true =>
        match py_in "projects" v with
        | None => None
        | Some b => Some (negb b)
        end
    end
end.

(** load_settings(). *)
Definition load_settings (dk : disk) : startup json * disk :=
match file dk with
| Absent => create_default_settings dk
| Unreadable => (SysExit 1, show ShowError dk)
| Malformed => create_default_settings (show ShowWarning dk)
| Stored settings =>
    match required_missing settings with
    | Some true => create_default_settings dk
    | Some false => (Loaded settings, dk)
    | None => (SysExit 1, show ShowError dk)
    end
end.

(* ===================================================================== *)
(** ** The job list of the [schedule] package *)
(* ===================================================================== *)

Module schedule.

(** A job made by every(interval).minutes.do(job_func): its interval in
    minutes and the time of its next run, in seconds. *)
Record Job : Type := mkJob {
  interval : Z;
  next_run : Z
}.

Definition period (j : Job) : Z := 60 * interval j.

(** Job.should_run: datetime.now() >= self.next_run. *)
Definition should_run (now : Z) (j : Job) : bool := (next_run j <=? now)%Z.

(** Job._schedule_next_run(): next_run = datetime.now() + period. *)
Definition schedule_next_run (now : Z) (j : Job) : Job :=
mkJob (interval j) (now + period j).

(** every(interval).minutes.do(job_func): the new job is appended with
    its first run one period from now. *)
Definition every_minutes_do (now : Z) (interval : Z) (jobs : list Job)
  : list Job :=
jobs ++ [schedule_next_run now (mkJob interval 0)].

(** clear(): every job is dropped. *)
Definition clear (jobs : list Job) : list Job := [].

(** The jobs run_pending() runs at time [now]. *)
Definition runnable (now : Z) (jobs : list Job) : list Job :=
List.filter (should_run now) jobs.

(** The job list after run_pending(): each job that ran is rescheduled. *)
Definition after_run_pending (now : Z) (jobs : list Job) : list Job :=
map (fun j => if should_run now j then schedule_next_run now j else j) jobs.

(** The instant a job's countdown is measured from: the datetime.now()
    read when its next run was last computed. *)
Definition countdown_origin (j : Job) : Z := next_run j - period j.

End schedule.

(* ===================================================================== *)
(** ** BackupApp (lines 113-468) *)
(* ===================================================================== *)

(** A threading.Thread that has been started. *)
Inductive thread : Type := Alive | Finished.

(** Where the scheduler thread stands in scheduler_task (lines 448-451):
    at the test of [while self.is_running], at schedule.run_pending(),
    in time.sleep(1), or returned. *)
Inductive scheduler_pc : Type := LoopTest | RunPending | Sleeping | Returned.

Module BackupApp.

(** The attributes of the application object that the backup engine
    uses, the job list of the schedule package, the clock, and two
    counters kept for the statements below: how many backup threads were
    started and how many times run_pending() was called. *)
Record t : Type := mk {
  settings : Settings;
  backup_thread : option thread;
  last_backup_path : option string;
  is_running : bool;
  open_folder_button : bool;
  destroyed : bool;
  w : world;
  jobs : list schedule.Job;
  scheduler_thread : scheduler_pc;
  now : Z;
  threads_started : nat;
  run_pending_calls : nat
}.

Definition set_settings (v : Settings) (a : t) : t :=
mk v (backup_thread a) (last_backup_path a) (is_running a)
   (open_folder_button a) (destroyed a) (w a) (jobs a) (scheduler_thread a)
   (now a) (threads_started a) (run_pending_calls a).

Definition set_backup_thread (v : option thread) (a : t) : t :=
mk (settings a) v (last_backup_path a) (is_running a)
   (open_folder_button a) (destroyed a) (w a) (jobs a) (scheduler_thread a)
   (now a) (threads_started a) (run_pending_calls a).

Definition set_last_backup_path (v : option string) (a : t) : t :=
mk (settings a) (backup_thread a) v (is_running a)
   (open_folder_button a) (destroyed a) (w a) (jobs a) (scheduler_thread a)
   (now a) (threads_started a) (run_pending_calls a).

Definition set_is_running (v : bool) (a : t) : t :=
mk (settings a) (backup_thread a) (last_backup_path a) v
   (open_folder_button a) (destroyed a) (w a) (jobs a) (scheduler_thread a)
   (now a) (threads_started a) (run_pending_calls a).

Definition set_open_folder_button (v : bool) (a : t) : t :=
mk (settings a) (backup_thread a) (last_backup_path a) (is_running a)
   v (destroyed a) (w a) (jobs a) (scheduler_thread a)
   (now a) (threads_started a) (run_pending_calls a).

Definition set_destroyed (v : bool) (a : t) : t :=
mk (settings a) (backup_thread a) (last_backup_path a) (is_running a)
   (open_folder_button a) v (w a) (jobs a) (scheduler_thread a)
   (now a) (threads_started a) (run_pending_calls a).

Definition set_w (v : world) (a : t) : t :=
mk (settings a) (backup_thread a) (last_backup_path a) (is_running a)
   (open_folder_button a) (destroyed a) v (jobs a) (scheduler_thread a)
   (now a) (threads_started a) (run_pending_calls a).

Definition set_jobs (v : list schedule.Job) (a : t) : t :=
mk (settings a) (backup_thread a) (last_backup_path a) (is_running a)
   (open_folder_button a) (destroyed a) (w a) v (scheduler_thread a)
   (now a) (threads_started a) (run_pending_calls a).

Definition set_scheduler_thread (v : scheduler_pc) (a : t) : t :=
mk (settings a) (backup_thread a) (last_backup_path a) (is_running a)
   (open_folder_button a) (destroyed a) (w a) (jobs a) v
   (now a) (threads_started a) (run_pending_calls a).

Definition set_now (v : Z) (a : t) : t :=
mk (settings a) (backup_thread a) (last_backup_path a) (is_running a)
   (open_folder_button a) (destroyed a) (w a) (jobs a) (scheduler_thread a)
   v (threads_started a) (run_pending_calls a).

Definition set_threads_started (v : nat) (a : t) : t :=
mk (settings a) (backup_thread a) (last_backup_path a) (is_running a)
   (open_folder_button a) (destroyed a) (w a) (jobs a) (scheduler_thread a)
   (now a) v (run_pending_calls a).

Definition set_run_pending_calls (v : nat) (a : t) : t :=
mk (settings a) (backup_thread a) (last_backup_path a) (is_running a)
   (open_folder_button a) (destroyed a) (w a) (jobs a) (scheduler_thread a)
   (now a) (threads_started a) v.

End BackupApp.

Import BackupApp.

(** self.all_log_content: the messages logged so far. *)
Definition all_log_content (self : BackupApp.t) : list message := log (w self).

(** self.log_message(message) seen from the application object. *)
Definition app_log (msg : message) (self : BackupApp.t) : BackupApp.t :=
set_w (snd (log_message msg (w self))) self.

(** self.backup_thread and self.backup_thread.is_alive() (line 426). *)
Definition backup_active (self : BackupApp.t) : bool :=
match backup_thread self with
| Some Alive => true
| _ => false
end.

(** manual_backup() (lines 423-437): the request is logged; when the
    backup thread is alive the "already in progress" message is logged
    and the method returns; otherwise a new thread is created and
    started. *)
Definition manual_backup (self : BackupApp.t) : BackupApp.t :=
let self := app_log ManualRequested self in
if backup_active self then app_log AlreadyRunning self
else
  set_threads_started (S (threads_started self))
    (set_backup_thread (Some Alive) self).

(** backup_task() (lines 430-434), the body of the backup thread, run to
    its end at the moment [timestamp_str] is read. *)
Definition backup_task (timestamp_str : string) (self : BackupApp.t)
  : BackupApp.t :=
match create_backup timestamp_str (settings self) log_message (w self) with
| (Return (success, backup_path), w') =>
    let self := set_w w' self in
    let self :=
      if success then
        set_open_folder_button true (set_last_backup_path backup_path self)
      else self in
    set_backup_thread (Some Finished) self
| (Raise _, w') => set_backup_thread (Some Finished) (set_w w' self)
end.

(** reschedule_backup() (lines 458-462). *)
Definition reschedule_backup (self : BackupApp.t) : BackupApp.t :=
let interval := backup_interval_minutes (settings self) in
set_jobs (schedule.every_minutes_do (now self) interval
            (schedule.clear (jobs self))) self.

(** run_scheduler_thread() (lines 446-456): the scheduler thread is
    started and the first job is scheduled. *)
Definition run_scheduler_thread (self : BackupApp.t) : BackupApp.t :=
reschedule_backup (set_scheduler_thread LoopTest self).

(** schedule.run_pending() at line 450: every runnable job calls its
    job_func, which is manual_backup for every job of this program, and
    is rescheduled. *)
Definition run_pending (self : BackupApp.t) : BackupApp.t :=
let due := schedule.runnable (now self) (jobs self) in
let self := fold_left (fun a _ => manual_backup a) due self in
set_run_pending_calls (S (run_pending_calls self))
  (set_jobs (schedule.after_run_pending (now self) (jobs self)) self).

(** One statement of scheduler_task() (lines 448-451). *)
Definition scheduler_step (self : BackupApp.t) : BackupApp.t :=
match scheduler_thread self with
| LoopTest =>
    if is_running self then set_scheduler_thread RunPending self
    else set_scheduler_thread Returned self
| RunPending => set_scheduler_thread Sleeping (run_pending self)
| Sleeping => set_scheduler_thread LoopTest self
| Returned => self
end.

(** save_interval() (lines 326-338); [entry] is int(self.interval_var.get()),
    [None] when it raises ValueError.  The new interval is stored, the
    change is logged and the schedule is reset, in that order. *)
Definition save_interval (entry : option Z) (self : BackupApp.t)
  : BackupApp.t :=
match entry with
| Some interval =>
    if (0 <? interval)%Z then
      let self :=
        set_settings (mkSettings interval
                        (backup_destination_folder (settings self))
                        (projects (settings self))) self in
      let self := app_log (IntervalChanged interval) self in
      reschedule_backup self
    else app_log InvalidInterval self
| None => app_log InvalidInterval self
end.

(** on_closing() (lines 464-468). *)
Definition on_closing (self : BackupApp.t) : BackupApp.t :=
let self := set_is_running false self in
let self := app_log Closing self in
set_destroyed true self.

(** The object at the end of __init__ (lines 141-156), started at time
    [t0] on file tree [tree] with the loaded [settings]. *)
Definition init (loaded : Settings) (tree : os.filesystem) (t0 : Z)
  : BackupApp.t :=
let self :=
  BackupApp.mk loaded None None true false false (mkWorld tree [])
               [] Returned t0 0 0 in
manual_backup (run_scheduler_thread self).

(** What can happen next: the user presses the backup button, saves an
    interval or closes the window; the scheduler thread or the backup
    thread runs; time passes. *)
Inductive event : Type :=
| PressBackup
| SaveInterval (entry : option Z)
| CloseWindow
| SchedulerRuns
| BackupThreadRuns (timestamp_str : string)
| TimePasses (seconds : Z).

Definition step (e : event) (self : BackupApp.t) : BackupApp.t :=
match e with
| PressBackup => if destroyed self then self else manual_backup self
| SaveInterval entry =>
    if destroyed self then self else save_interval entry self
| CloseWindow => if destroyed self then self else on_closing self
| SchedulerRuns => scheduler_step self
| BackupThreadRuns timestamp_str =>
    if backup_active self then backup_task timestamp_str self else self
| TimePasses seconds => set_now (now self + Z.max 0 seconds) self
end.

Definition run (es : list event) (self : BackupApp.t) : BackupApp.t :=
fold_left (fun a e => step e a) es self.

(** The "already in progress" class of log messages. *)
Definition is_already_running (m : message) : bool :=
match m with
| AlreadyRunning => true
| _ => false
end.

Definition count_already_running (l : list message) : nat :=
List.length (List.filter is_already_running l).

(* ===================================================================== *)
(** ** Exclusion as the specification words it *)
(* ===================================================================== *)


(* ===================================================================== *)
(** ** What a reader that follows links finds *)
(* ===================================================================== *)

(** [at_path n p m]: the names [p], no link followed, lead from [n] to
    [m]. *)
Inductive at_path : os.node -> list string -> os.node -> Prop :=
| at_path_here n : at_path n [] n
| at_path_entry l es c k p m :
    In (c, k) es -> at_path k p m -> at_path (os.Dir l es) (c :: p) m.

(** [reaches rt b n cur p m]: going down from [n], which lies at [cur],
    along the names [p], a reader that follows every link it meets
    arrives at [m]; it enters listable directories only, and [b] is the
    number of links it may still follow.  It arrives at a link only
    when that number is used up. *)
Inductive reaches (rt : os.node)
  : nat -> os.node -> list string -> list string -> os.node -> Prop :=
| reaches_file b data readable cur :
    reaches rt b (os.File data readable) cur [] (os.File data readable)
| reaches_dir b l es cur :
    reaches rt b (os.Dir l es) cur [] (os.Dir l es)
| reaches_entry b es cur c k p m :
    In (c, k) es -> reaches rt b k (cur ++ [c]) p m ->
    reaches rt b (os.Dir true es) cur (c :: p) m
| reaches_link b t cur phys k p m :
    t <> "" ->
    os.walk b rt rt [] (os.link_path (removelast cur) t) = os.Found phys k ->
    reaches rt b k phys p m ->
    reaches rt (S b) (os.Link t) cur p m
| reaches_limit t cur :
    reaches rt 0 (os.Link t) cur [] (os.Link t).

(** os.path.join(base, c1, ..., cn). *)
Definition join_all (base : string) (p : list string) : string :=
fold_left posixpath.join p base.

(** No name of the path is matched by a pattern. *)
Definition kept_names (patterns : list string) (p : list string) : Prop :=
Forall (fun c => shutil.name_ignored patterns c = false) p.

(** What the copy does with what a descent along [p] arrives at: a
    readable file is in the copy under those names with its bytes, a
    listable directory is a directory there; an unreadable file, an
    unlistable directory and a link met with the limit used up are
    failures recorded under the names of the entry. *)
Definition copied_as (m : os.node) (p : list string) (src dst : string)
  (r : shutil.copied) : Prop :=
match m with
| os.File data true =>
    exists k', fst r = Some k' /\ at_path k' p (os.File data true)
| os.Dir true _ =>
    exists k' es', fst r = Some k' /\ at_path k' p (os.Dir true es')
| os.File _ false | os.Dir false _ =>
    In (join_all src p, join_all dst p, (os.EACCES, join_all src p)) (snd r)
| os.Link _ =>
    In (join_all src p, join_all dst p, (os.ELOOP, join_all src p)) (snd r)
end.

(** What an entry [x] of the copy mirrors: a readable file with the same
    bytes, or a listable directory. *)
Definition mirrors (x m : os.node) : Prop :=
(exists data, x = os.File data true /\ m = os.File data true)
\/ (exists es es', x = os.Dir true es' /\ m = os.Dir true es).

(* ===================================================================== *)
(** ** Induction over file trees *)
(* ===================================================================== *)

Import os shutil.

Section node_induction.
Variable P : node -> Prop.
Hypothesis Hfile : forall d r, P (File d r).
Hypothesis Hlink : forall t, P (Link t).
Hypothesis Hdir : forall l es, Forall (fun e => P (snd e)) es -> P (Dir l es).

Fixpoint node_rect' (n : node) : P n :=
match n with
| File d r => Hfile d r
| Link t => Hlink t
| Dir l es =>
    Hdir l es
      ((fix all (es : list (string * node)) : Forall (fun e => P (snd e)) es :=
          match es with
          | [] => Forall_nil _
          | e :: es' => Forall_cons e (node_rect' (snd e)) (all es')
          end) es)
end.
End node_induction.

(* ===================================================================== *)
(** ** Example trees and the claims the code does not meet *)
(* ===================================================================== *)

Definition bytes_hi : list Byte.byte := [Byte.x68; Byte.x69].

(** /src holds a.txt, b.tmp and sub/c.tmp; /bk is empty. *)
Definition tmp_tree : os.filesystem :=
os.mkfs
  (os.Dir true
     [("src", os.Dir true
                [("a.txt", os.File bytes_hi true);
                 ("b.tmp", os.File [] true);
                 ("sub", os.Dir true [("c.tmp", os.File [] true)])]);
      ("bk", os.Dir true [])])
  [].


(** /src holds a link to /src itself. *)
Definition cyclic_tree : os.filesystem :=
os.mkfs
  (os.Dir true
     [("src", os.Dir true [("loop", os.Link ".")]);
      ("bk", os.Dir true [])])
  [].

(** /src holds three files, the ones named in [locked] unreadable. *)
Definition locked_tree (locked : list string) : os.filesystem :=
os.mkfs
  (os.Dir true
     [("src", os.Dir true
                (map (fun c => (c, os.File bytes_hi (negb (shutil.mem c locked))))
                     ["x"; "y"; "z"]));
      ("bk", os.Dir true [])])
  [].

(** The claim on the error detail, as a statement about the code: what
    is logged for a project with failed entries is made from the first
    failure and the number of failures. *)
Definition detail_is_first_and_count
  (summarize : option copy_error -> nat -> exn) : Prop :=
forall fs src dst patterns fs' errors,
  shutil.copytree fs src dst patterns = (fs', inr (ShutilError errors)) ->
  ShutilError errors = summarize (hd_error errors) (List.length errors).

(** The number of directories nested along the name [c]. *)
Fixpoint nesting (c : string) (fuel : nat) (n : os.node) : nat :=
match fuel with
| O => O
| S fuel' =>
    match n with
    | os.Dir _ es =>
        match os.lookup c es with
        | Some m => S (nesting c fuel' m)
        | None => O
        end
    | _ => O
    end
end.

(** The "backup requested" messages: one per call of manual_backup. *)
Definition is_manual_requested (m : message) : bool :=
match m with
| ManualRequested => true
| _ => false
end.

Definition count_requests (l : list message) : nat :=
List.length (List.filter is_manual_requested l).


(** The claim on rescheduling, as a statement about the code: saving
    [interval] starts no backup, leaves as many jobs as there were, keeps
    the instant the running countdown is measured from, and gives the
    jobs the new interval. *)
Definition interval_change_keeps_timer (self : BackupApp.t) (interval : Z)
  : Prop :=
let self' := save_interval (Some interval) self in
threads_started self' = threads_started self
/\ List.length (jobs self') = List.length (jobs self)
/\ map schedule.countdown_origin (jobs self')
   = map schedule.countdown_origin (jobs self)
/\ map schedule.interval (jobs self') = map (fun _ => interval) (jobs self).

(** The claim on stopping, as a statement about the code: when
    on_closing returns the scheduler thread has returned, and whatever
    happens afterwards no further backup request is made. *)
Definition stop_is_final (self : BackupApp.t) : Prop :=
let stopped := on_closing self in
scheduler_thread stopped = Returned
/\ forall es, count_requests (all_log_content (run es stopped))
              = count_requests (all_log_content stopped).

(** The application started at time 0 with a ten-minute interval, nine
    minutes later. *)
Definition app_after_nine_minutes : BackupApp.t :=
run [TimePasses 540] (init (mkSettings 10 "/bk" []) tmp_tree 0).

(** The application started with a one-minute interval, one minute
    later, its scheduler thread past the loop test. *)
Definition app_about_to_run_pending : BackupApp.t :=
run [SchedulerRuns; TimePasses 60] (init (mkSettings 1 "/bk" []) tmp_tree 0).

(** The scheduler thread after is_running was cleared: how many calls of
    run_pending() it still has in front of it. *)
Definition calls_ahead (self : BackupApp.t) : nat :=
match scheduler_thread self with
| RunPending => 1
| _ => 0
end.

(** How many of the events are steps of the scheduler thread. *)
Definition scheduler_steps (es : list event) : nat :=
List.length (List.filter (fun e => match e with
                                   | SchedulerRuns => true
                                   | _ => false
                                   end) es).

(** The scheduler thread after is_running was cleared: how many of its
    steps bring it to the end of scheduler_task. *)
Definition steps_to_exit (self : BackupApp.t) : nat :=
match scheduler_thread self with
| RunPending => 3
| Sleeping => 2
| LoopTest => 1
| Returned => 0
end.

(** The settings and states the statements are run on. *)
Definition proj_src : Project := mkProject "proj" "/src" (Some ["*.tmp"]).

Definition proj_gone : Project := mkProject "gone" "/nope" None.

Definition app_started : BackupApp.t :=
init (mkSettings 10 "/bk" [proj_src]) tmp_tree 0.

Definition app_without_destination : BackupApp.t :=
init (mkSettings 10 "" [proj_src]) tmp_tree 0.

(** Two projects named "p": the first source is the regular file
    /src/a.txt, the second the directory /src. *)
Definition same_name_settings : Settings :=
mkSettings 10 "/bk" [mkProject "p" "/src/a.txt" None;
                     mkProject "p" "/src" None].

(* ===================================================================== *)
(** ** More of backup.py: strings, log views, settings edits *)
(* ===================================================================== *)

(** The str methods the program calls, on byte strings.  White space
    and letter case are the ASCII ones: the functions agree with Python's
    on text whose other characters are neither white space nor cased, as
    the Korean of the program's messages is. *)
Module str.

(** c.isspace() for an ASCII character: tab to carriage return, the
    four separators 28-31, and the space. *)
Definition isspace (c : ascii) : bool :=
let n := nat_of_ascii c in
(Nat.leb 9 n && Nat.leb n 13) || (Nat.leb 28 n && Nat.leb n 32).

Fixpoint lstrip (s : string) : string :=
match s with
| EmptyString => EmptyString
| String c s' => if isspace c then lstrip s' else s
end.

Fixpoint rstrip (s : string) : string :=
match s with
| EmptyString => EmptyString
| String c s' =>
    match rstrip s' with
    | EmptyString => if isspace c then EmptyString else String c EmptyString
    | r => String c r
    end
end.

(** s.strip(). *)
Definition strip (s : string) : string := rstrip (lstrip s).

(** s.split(sep) for a one-character separator: never the empty list. *)
Fixpoint split (sep : ascii) (s : string) : list string :=
match s with
| EmptyString => [EmptyString]
| String c s' =>
    if Ascii.eqb c sep then EmptyString :: split sep s'
    else match split sep s' with
         | [] => [String c EmptyString]
         | h :: t => String c h :: t
         end
end.

(** sep.join(items). *)
Fixpoint join (sep : string) (items : list string) : string :=
match items with
| [] => EmptyString
| [x] => x
| x :: items' => (x ++ sep ++ join sep items')%string
end.

Definition lower_char (c : ascii) : ascii :=
let n := nat_of_ascii c in
if (Nat.leb 65 n && Nat.leb n 90)%bool then ascii_of_nat (n + 32) else c.

(** s.lower(). *)
Fixpoint lower (s : string) : string :=
match s with
| EmptyString => EmptyString
| String c s' => String (lower_char c) (lower s')
end.

(** s.startswith(p) and s.endswith(p). *)
Definition startswith (p s : string) : bool := String.prefix p s.

Fixpoint endswith (p s : string) : bool :=
String.eqb p s
|| match s with
   | EmptyString => false
   | String _ s' => endswith p s'
   end.

Definition newline : ascii := ascii_of_nat 10.

Definition comma : ascii := ","%char.

End str.

(** The first entry of the log file list (line 254). *)
Definition current_log : string := "현재 로그".

(** The text shown when a search finds nothing (line 313). *)
Definition no_results : string := "검색 결과가 없습니다.".

(** sorted(names, reverse=True): largest first.  Names that compare
    equal are the same string, so their order among themselves does not
    show. *)
Fixpoint insert_desc (x : string) (l : list string) : list string :=
match l with
| [] => [x]
| h :: t => if String.leb h x then x :: l else h :: insert_desc x t
end.

Fixpoint sorted_reverse (l : list string) : list string :=
match l with
| [] => []
| x :: l' => insert_desc x (sorted_reverse l')
end.

Definition is_log_file (f : string) : bool :=
str.startswith "log_" f && str.endswith ".txt" f.

(** get_log_files() (lines 251-257); [listing] is os.listdir of the logs
    folder, [None] when the folder does not exist. *)
Definition get_log_files (listing : option (list string)) : list string :=
match listing with
| None => [current_log]
| Some names => current_log :: sorted_reverse (List.filter is_log_file names)
end.

(** The lines search_logs keeps (lines 302-308). *)
Definition search_results (search_var all_log_content : string) : list string :=
let keyword := str.lower search_var in
let lines := str.split str.newline all_log_content in
List.filter (fun line => substring_of keyword (str.lower line)) lines.

(** search_logs() (lines 300-316): the text put into the log widget. *)
Definition search_logs (search_var all_log_content : string) : string :=
match search_results search_var all_log_content with
| [] => no_results
| results => str.join (String str.newline EmptyString) results
end.

(** The messages of the settings tab and of the folder button, one
    constructor per message text. *)
Inductive dialog_action : Type := AddProject | EditProject.

Inductive notice : Type :=
| DestinationChanged (new_dest : string)     (* line 346 *)
| InvalidDestination                         (* line 348 *)
| NameAndPathRequired                        (* line 393 *)
| ProjectSaved (action : dialog_action)      (* line 406 *)
| SelectProjectToRemove                      (* line 415 *)
| ProjectRemoved                             (* line 421 *)
| NoFolderToOpen.                            (* line 444 *)

Definition with_projects (ps : list Project) (self : BackupApp.t)
  : BackupApp.t :=
set_settings (mkSettings (backup_interval_minutes (settings self))
                         (backup_destination_folder (settings self)) ps)
             self.

(** save_destination() (lines 340-348); [dest_var] is the text of the
    entry.  The message handed to log_message is returned beside the
    new state. *)
Definition save_destination (dest_var : string) (self : BackupApp.t)
  : BackupApp.t * notice :=
let new_dest := str.strip dest_var in
if os.path_exists (fs (w self)) new_dest then
  (set_settings (mkSettings (backup_interval_minutes (settings self))
                            new_dest (projects (settings self))) self,
   DestinationChanged new_dest)
else (self, InvalidDestination).

(** Line 396: the comma-separated exclude entry as a list. *)
Definition parse_exclude (exclude_str : string) : list string :=
List.filter (fun item => negb (String.eqb item ""))
            (map str.strip (str.split str.comma exclude_str)).

(** Lines 374-378: what the edit dialog shows for a project. *)
Definition prefill (project : Project) : string * string * string :=
(name project, path project,
 str.join ", " (exclude_patterns_of project)).

Fixpoint list_set {A : Type} (i : nat) (x : A) (l : list A) : list A :=
match l, i with
| [], _ => []
| _ :: l', O => x :: l'
| h :: l', S i' => h :: list_set i' x l'
end.

Fixpoint list_del {A : Type} (i : nat) (l : list A) : list A :=
match l, i with
| [], _ => []
| _ :: l', O => l'
| h :: l', S i' => h :: list_del i' l'
end.

(** save_project() of the project dialog (lines 387-407), for the dialog
    opened with [action] and [index]; the three strings are the texts of
    the entries.  [None] is the IndexError of an index past the list. *)
Definition save_project (action : dialog_action) (index : nat)
  (name_var path_var exclude_var : string) (self : BackupApp.t)
  : option (BackupApp.t * notice) :=
let name := str.strip name_var in
let path := str.strip path_var in
let exclude_str := str.strip exclude_var in
if (String.eqb name "" || String.eqb path "")%bool then
  Some (self, NameAndPathRequired)
else
  let exclude_list := parse_exclude exclude_str in
  let new_project := mkProject name path (Some exclude_list) in
  let ps := projects (settings self) in
  match action with
  | AddProject => Some (with_projects (ps ++ [new_project]) self, ProjectSaved AddProject)
  | EditProject =>
      if Nat.ltb index (List.length ps) then
        Some (with_projects (list_set index new_project ps) self,
              ProjectSaved EditProject)
      else None
  end.

(** remove_project() (lines 411-421); [selection] is the selected row of
    the list box, [None] when no row is selected. *)
Definition remove_project (selection : option nat) (self : BackupApp.t)
  : option (BackupApp.t * notice) :=
match selection with
| None => Some (self, SelectProjectToRemove)
| Some i =>
    let ps := projects (settings self) in
    if Nat.ltb i (List.length ps) then
      Some (with_projects (list_del i ps) self, ProjectRemoved)
    else None
end.

(** update_ui_from_settings() (lines 322-324): the rows of the list box. *)
Definition listbox_rows (self : BackupApp.t) : list string :=
map (fun project => (name project ++ " -> " ++ path project)%string)
    (projects (settings self)).

(** open_last_backup_folder() (lines 439-444): the folder handed to
    webbrowser.open, or the message logged. *)
Definition open_last_backup_folder (self : BackupApp.t) : string + notice :=
match last_backup_path self with
| Some p =>
    if (negb (String.eqb p "") && os.path_exists (fs (w self)) p)%bool
    then inl p else inr NoFolderToOpen
| None => inr NoFolderToOpen
end.

(** The messages create_backup logs for one project. *)
Definition is_outcome (m : message) : bool :=
match m with
| PathNotFound _ | ProjectDone _ | ProjectError _ _ => true
| _ => false
end.

Definition outcome_of (p : Project) (m : message) : Prop :=
m = PathNotFound (path p) \/ m = ProjectDone (name p)
\/ exists e, m = ProjectError (name p) e.



(** ** What the statements about the rest of backup.py speak of *)

(** The messages one pass of the loop over the projects can log. *)
Definition is_project_message (m : message) : bool :=
match m with
| PathNotFound _ | ProjectStarting _ | ProjectDone _ | ProjectError _ _ => true
| _ => false
end.

(** What holds of the schedule in every state the application reaches:
    one job, with the configured interval, due at most one interval from
    now. *)
Definition one_job_scheduled (self : BackupApp.t) : Prop :=
exists next,
  jobs self = [schedule.mkJob (backup_interval_minutes (settings self)) next]
  /\ (next <= now self + 60 * backup_interval_minutes (settings self))%Z.


(** The three names load_settings looks for (lines 49-51). *)
Definition required_names : list string :=
["backup_interval_minutes"; "backup_destination_folder"; "projects"].

(** current_log_file_path without its folder (line 144); [stamp] is the
    formatted time. *)
Definition current_log_file (stamp : string) : string :=
("log_" ++ stamp ++ ".txt")%string.

(** sorted(..., reverse=True) leaves every name at least as large as the
    one after it. *)
Definition descending (l : list string) : Prop :=
Sorted (fun a b => String.leb b a = true) l.

Fixpoint has_char (c : ascii) (s : string) : bool :=
match s with
| EmptyString => false
| String a s' => Ascii.eqb a c || has_char c s'
end.

(** A text the dialog's entries give back as it went in: not empty and
    without white space at either end. *)
Definition trimmed (x : string) : Prop := x <> "" /\ str.strip x = x.

(** An exclusion pattern the comma-separated entry can hold. *)
Definition clean_item (x : string) : Prop :=
trimmed x /\ has_char str.comma x = false.

(** A project as save_project stores it. *)
Definition clean_project (p : Project) : Prop :=
trimmed (name p) /\ trimmed (path p)
/\ exists l, exclude_folders p = Some l /\ Forall clean_item l.

(** The file tree after one run stamped "t" over [tmp_tree]. *)
Definition tree_after_run : os.filesystem :=
fs (snd (create_backup "t" (mkSettings 10 "/bk" [proj_src]) log_message
           (mkWorld tmp_tree []))).

(** The application whose only project has no folder. *)
Definition app_nothing_to_copy : BackupApp.t :=
init (mkSettings 10 "/bk" [proj_gone]) tmp_tree 0.

(** A settings file that holds a list of names instead of an object. *)
Definition names_file : disk :=
mkDisk (Stored (JArray [JString "projects";
                        JString "backup_destination_folder";
                        JString "backup_interval_minutes"])) true [].

(* ===================================================================== *)
(** * Verification *)
(* ===================================================================== *)

(** ** File trees: lookup, extension, path resolution *)

Lemma lookup_in c es m : lookup c es = Some m -> In (c, m) es.
Proof.
  induction es as [|[d k] es IH]; simpl; [discriminate|].
  destruct (String.eqb_spec c d).
  - intros [= ->]. subst. now left.
  - intros H. right. auto.
Qed.

Lemma ext_refl n : ext n n.
Proof.
  induction n as [d r|t|l es IH] using node_rect'; constructor.
  intros c m H. exists m. split; [assumption|].
  apply lookup_in in H. rewrite Forall_forall in IH. apply (IH _ H).
Qed.

Lemma lookup_app_some c es l m :
  lookup c es = Some m -> lookup c (es ++ l) = Some m.
Proof.
  induction es as [|[d k] es IH]; simpl; [discriminate|].
  destruct (String.eqb c d); auto.
Qed.

Lemma lookup_app_none c es l :
  lookup c es = None -> lookup c (es ++ l) = lookup c l.
Proof.
  induction es as [|[d k] es IH]; simpl; [reflexivity|].
  destruct (String.eqb c d); [discriminate|auto].
Qed.

Lemma lookup_update_same d f es k :
  lookup d es = Some k -> lookup d (update d f es) = Some (f k).
Proof.
  induction es as [|[e n] es IH]; simpl; [discriminate|].
  destruct (String.eqb d e) eqn:E; simpl; rewrite E.
  - now intros [= ->].
  - auto.
Qed.

Lemma lookup_update_other c d f es :
  c <> d -> lookup c (update d f es) = lookup c es.
Proof.
  intros N. induction es as [|[e n] es IH]; simpl; [reflexivity|].
  destruct (String.eqb_spec d e); simpl.
  - subst. destruct (String.eqb_spec c e); congruence.
  - destruct (String.eqb c e); auto.
Qed.

Lemma ext_add_at cur : forall n c m, ext n (add_at n cur c m).
Proof.
  induction cur as [|d cur IH]; intros [dt r|t|l es] c m; simpl;
    try apply ext_refl.
  - constructor. intros c0 m0 H. exists m0. split; [|apply ext_refl].
    now apply lookup_app_some.
  - constructor. intros c0 m0 H.
    destruct (String.eqb_spec c0 d).
    + subst. eexists. split; [apply lookup_update_same; eassumption|apply IH].
    + exists m0. split; [|apply ext_refl].
      rewrite lookup_update_other; assumption.
Qed.

Lemma ext_get n n' p :
  ext n n' -> forall m, get n p = Some m ->
  exists m', get n' p = Some m' /\ ext m m'.
Proof.
  revert n n'. induction p as [|c p IH]; intros n n' E m; simpl.
  - intros [= <-]. eauto.
  - destruct E as [d r|t|l es es' H]; try discriminate.
    destruct (lookup c es) as [k|] eqn:L; [|discriminate].
    destruct (H _ _ L) as (k' & L' & E'). rewrite L'. eauto.
Qed.

Lemma get_app n p q :
  get n (p ++ q) = match get n p with Some m => get m q | None => None end.
Proof.
  revert n. induction p as [|c p IH]; intros n; simpl; [reflexivity|].
  destruct n as [| |l es]; try reflexivity.
  destruct (lookup c es); auto.
Qed.

Lemma get_add_at cur : forall n l es c m,
  get n cur = Some (Dir l es) ->
  get (add_at n cur c m) cur = Some (Dir l (es ++ [(c, m)])).
Proof.
  induction cur as [|d cur IH]; intros n l es c m; simpl.
  - intros [= ->]. reflexivity.
  - destruct n as [| |l0 es0]; try discriminate.
    destruct (lookup d es0) as [k|] eqn:L; [|discriminate].
    intros G. simpl. erewrite lookup_update_same by eassumption. now apply IH.
Qed.

Arguments walk : simpl never.

Lemma walk_nil b rt n cur : walk b rt n cur [] = Found cur n.
Proof. destruct b; reflexivity. Qed.

Lemma walk_cons b rt n cur c rest :
  walk b rt n cur (c :: rest) =
  match n with
  | Dir _ es =>
      match lookup c es with
      | None => Missing cur (c :: rest)
      | Some (Link t) =>
          match b with
          | O => Failed ELOOP
          | S b' =>
              if String.eqb t "" then Failed ENOENT
              else match walk b' rt rt [] (link_path cur t) with
                   | Found phys m => walk b rt m phys rest
                   | Missing _ _ => Failed ENOENT
                   | Failed e => Failed e
                   end
          end
      | Some m => walk b rt m (cur ++ [c]) rest
      end
  | File _ _ => Failed ENOTDIR
  | Link _ => Failed ELOOP
  end.
Proof. destruct b; reflexivity. Qed.

Lemma walk_found_get rt b : forall todo n cur phys k,
  get rt cur = Some n ->
  walk b rt n cur todo = Found phys k -> get rt phys = Some k.
Proof.
  induction b as [|b IHb]; induction todo as [|c rest IHt]; intros n cur phys k G;
    rewrite ?walk_nil, ?walk_cons; try (intros [= <- <-]; assumption).
  - destruct n as [| |l es]; try discriminate.
    destruct (lookup c es) as [[d r|t|l' es']|] eqn:L; try discriminate;
      apply IHt; rewrite get_app, G; simpl; rewrite L; reflexivity.
  - destruct n as [| |l es]; try discriminate.
    destruct (lookup c es) as [[d r|t|l' es']|] eqn:L; try discriminate;
      try (apply IHt; rewrite get_app, G; simpl; rewrite L; reflexivity).
    destruct (String.eqb t ""); [discriminate|].
    destruct (walk b rt rt [] (link_path cur t)) as [ph m| |] eqn:W; try discriminate.
    apply IHt. eapply IHb; [|exact W]. reflexivity.
Qed.

Lemma walk_missing_inv rt b : forall todo n cur par td,
  get rt cur = Some n ->
  walk b rt n cur todo = Missing par td ->
  exists l es c rest, td = c :: rest /\ get rt par = Some (Dir l es)
                      /\ lookup c es = None.
Proof.
  induction b as [|b IHb]; induction todo as [|c rest IHt]; intros n cur par td G;
    rewrite ?walk_nil, ?walk_cons; try discriminate.
  - destruct n as [| |l es]; try discriminate.
    destruct (lookup c es) as [[d r|t|l' es']|] eqn:L; try discriminate;
      try (apply IHt; rewrite get_app, G; simpl; rewrite L; reflexivity).
    intros [= <- <-]. eauto 8.
  - destruct n as [| |l es]; try discriminate.
    destruct (lookup c es) as [[d r|t|l' es']|] eqn:L; try discriminate;
      try (apply IHt; rewrite get_app, G; simpl; rewrite L; reflexivity).
    + destruct (String.eqb t ""); [discriminate|].
      destruct (walk b rt rt [] (link_path cur t)) as [ph m| |] eqn:W; try discriminate.
      apply IHt. eapply walk_found_get; [|exact W]. reflexivity.
    + intros [= <- <-]. eauto 8.
Qed.

Lemma walk_ext rt rt' b : ext rt rt' -> forall todo n n' cur phys k,
  ext n n' ->
  walk b rt n cur todo = Found phys k ->
  exists k', walk b rt' n' cur todo = Found phys k' /\ ext k k'.
Proof.
  intros R. induction b as [|b IHb]; induction todo as [|c rest IHt];
    intros n n' cur phys k E; rewrite ?walk_nil, ?walk_cons;
    try (intros [= <- <-]; eauto).
  - destruct E as [d r|t|l es es' H]; try discriminate.
    destruct (lookup c es) as [m|] eqn:L; [|discriminate].
    destruct (H _ _ L) as (m' & L' & E'). rewrite L'.
    destruct E' as [d r|t|l2 es2 es2' H2]; try discriminate;
      intros W; eapply IHt; try exact W; constructor; assumption.
  - destruct E as [d r|t|l es es' H]; try discriminate.
    destruct (lookup c es) as [m|] eqn:L; [|discriminate].
    destruct (H _ _ L) as (m' & L' & E'). rewrite L'.
    destruct E' as [d r|t|l2 es2 es2' H2];
      try (intros W; eapply IHt; try exact W; constructor; assumption).
    destruct (String.eqb t ""); [discriminate|].
    destruct (walk b rt rt [] (link_path cur t)) as [ph m| |] eqn:W; try discriminate.
    destruct (IHb _ _ _ _ _ _ R W) as (m' & W' & Em). rewrite W'.
    intros W2. eapply IHt; eassumption.
Qed.

Lemma chain_dir rest l content :
  exists l' es, chain rest (Dir l content) = Dir l' es.
Proof. destruct rest; simpl; eauto. Qed.

Lemma walk_chain rt b rest : forall cur l content,
  walk b rt (chain rest (Dir l content)) cur rest
  = Found (cur ++ rest) (Dir l content).
Proof.
  induction rest as [|c rest IH]; intros cur l content.
  - rewrite walk_nil, app_nil_r. reflexivity.
  - rewrite walk_cons. simpl. rewrite String.eqb_refl.
    destruct (chain_dir rest l content) as (l' & es & C).
    rewrite C, <- C, IH, <- app_assoc. reflexivity.
Qed.

Lemma walk_created rt b par c rest content :
  let rt' := add_at rt par c (chain rest (Dir true content)) in
  forall todo n n' cur,
  get rt cur = Some n -> get rt' cur = Some n' ->
  walk b rt n cur todo = Missing par (c :: rest) ->
  walk b rt' n' cur todo = Found (par ++ c :: rest) (Dir true content).
Proof.
  intros rt'.
  assert (R : ext rt rt') by apply ext_add_at.
  induction b as [|b IHb]; induction todo as [|d todo IHt]; intros n n' cur G G';
    rewrite ?walk_nil, ?(walk_cons _ rt), ?(walk_cons _ rt'); try discriminate.
  all: destruct n as [| |l es]; try discriminate.
  all: destruct (lookup d es) as [m|] eqn:L.
  all: try (intros W; injection W as -> -> ->;
            unfold rt' in G'; erewrite get_add_at in G' by eassumption;
            injection G' as <-; rewrite lookup_app_none by assumption; simpl;
            rewrite String.eqb_refl;
            destruct (chain_dir rest true content) as (l' & es' & C);
            rewrite C, <- C, walk_chain, <- app_assoc; reflexivity).
  all: destruct (ext_get _ _ cur R _ G) as (n2 & G2 & E2);
       rewrite G' in G2; injection G2 as <-;
       inversion E2 as [| |l0 es0 es0' H0]; subst;
       destruct (H0 _ _ L) as (m' & L' & E'); rewrite L'.
  all: assert (Gm : get rt (cur ++ [d]) = Some m)
         by (rewrite get_app, G; simpl; rewrite L; reflexivity).
  all: assert (Gm' : get rt' (cur ++ [d]) = Some m')
         by (rewrite get_app, G'; simpl; rewrite L'; reflexivity).
  all: destruct E' as [dt r|t|l2 es2 es2' H2]; try discriminate;
       try (apply IHt; assumption).
  destruct (String.eqb t ""); [discriminate|].
  destruct (walk b rt rt [] (link_path cur t)) as [ph k| |] eqn:W; try discriminate.
  destruct (walk_ext rt rt' b R _ _ _ _ _ _ R W) as (k' & W' & Ek). rewrite W'.
  apply IHt.
  - eapply walk_found_get; [|exact W]; reflexivity.
  - eapply walk_found_get; [|exact W']; reflexivity.
Qed.

Lemma ext_trans n1 : forall n2 n3, ext n1 n2 -> ext n2 n3 -> ext n1 n3.
Proof.
  induction n1 as [d r|t|l es IH] using node_rect'; intros n2 n3 E1 E2;
    inversion E1; subst; inversion E2; subst; constructor.
  intros c m L.
  match goal with H : forall c m, lookup c es = Some m -> _ |- _ =>
    destruct (H _ _ L) as (m2 & L2 & X2) end.
  match goal with H : forall c m, lookup c es' = Some m -> _ |- _ =>
    destruct (H _ _ L2) as (m3 & L3 & X3) end.
  exists m3. split; [assumption|].
  rewrite Forall_forall in IH. eapply (IH (c, m)); eauto using lookup_in.
Qed.

Lemma extends_refl fs : extends fs fs.
Proof. split; [apply ext_refl|reflexivity]. Qed.

Lemma extends_trans a b c : extends a b -> extends b c -> extends a c.
Proof. intros [E1 C1] [E2 C2]. split; [eapply ext_trans; eauto|congruence]. Qed.

Lemma extends_create fs parent todo content : extends fs (create fs parent todo content).
Proof.
  destruct todo as [|c rest]; simpl; [apply extends_refl|].
  split; [apply ext_add_at|reflexivity].
Qed.

Lemma resolve_extends fs fs' p phys k :
  extends fs fs' -> resolve fs p = Found phys k ->
  exists k', resolve fs' p = Found phys k' /\ ext k k'.
Proof.
  intros [E C]. unfold resolve. rewrite C.
  destruct (String.eqb p ""); [discriminate|].
  apply walk_ext; assumption.
Qed.

Lemma path_exists_extends fs fs' p :
  extends fs fs' -> path_exists fs p = true -> path_exists fs' p = true.
Proof.
  unfold path_exists. intros E.
  destruct (resolve fs p) as [phys k| |] eqn:R; try discriminate.
  destruct (resolve_extends _ _ _ _ _ E R) as (k' & -> & _). reflexivity.
Qed.

Lemma resolve_missing_cons fs p parent todo :
  resolve fs p = Missing parent todo -> todo <> [].
Proof.
  unfold resolve. destruct (String.eqb p ""); [discriminate|].
  intros W. eapply walk_missing_inv in W; [|reflexivity].
  destruct W as (l & es & c & rest & -> & _). discriminate.
Qed.

Lemma resolve_create fs p parent todo content :
  resolve fs p = Missing parent todo ->
  resolve (create fs parent todo content) p
  = Found (parent ++ todo) (Dir true content).
Proof.
  intros R. pose proof R as R0. unfold resolve in R |- *.
  destruct (String.eqb p ""); [discriminate|].
  pose proof R as W. eapply walk_missing_inv in W; [|reflexivity].
  destruct W as (l & es & c & rest & -> & G & L).
  simpl. eapply walk_created; try reflexivity. exact R.
Qed.

Lemma resolve_empty fs : resolve fs "" = Failed ENOENT.
Proof. reflexivity. Qed.

Lemma copy_node_file b rt pats src dst cur data r :
  copy_node b rt pats src dst cur (File data r) = copy2 src dst data r.
Proof. destruct b; reflexivity. Qed.

Lemma copy_node_dir b rt pats src dst cur l es :
  copy_node b rt pats src dst cur (Dir l es) =
  if l then
    let r := copy_entries b rt pats (ignore_patterns pats (map fst es))
                          src dst cur es in
    (Some (Dir true (fst r)), snd r)
  else failed src dst EACCES.
Proof.
  destruct l; [|destruct b; reflexivity].
  set (ign := ignore_patterns pats (map fst es)).
  assert (E : forall es', 
    (let '(kept, errors) := copy_entries b rt pats ign src dst cur es' in (Some (Dir true kept), errors)) =
    (let r := copy_entries b rt pats ign src dst cur es' in
    (Some (Dir true (fst r)), snd r))).
  { intros es'. destruct (copy_entries _ _ _ _ _ _ _ es'); reflexivity. }
  rewrite <- E. clear E.
  destruct b; simpl.
  all: match goal with
       |- (let '(kept, errors) := ?f _ in _)
          = (let '(_, _) := copy_entries ?bb _ _ _ _ _ _ _ in _) =>
         assert (F : forall es', f es' = copy_entries bb rt pats ign src dst cur es');
         [|rewrite F; reflexivity] end.
  all: induction es' as [|[name k] es' IH]; [reflexivity|].
  all: simpl; rewrite IH; reflexivity.
Qed.

Lemma copy_node_link b rt pats src dst cur t :
  copy_node b rt pats src dst cur (Link t) =
  match b with
  | O => failed src dst ELOOP
  | S b' =>
      if String.eqb t "" then failed src dst ENOENT
      else match walk b' rt rt [] (link_path (removelast cur) t) with
           | Found phys m => copy_node b' rt pats src dst phys m
           | Missing _ _ => failed src dst ENOENT
           | Failed e => failed src dst e
           end
  end.
Proof. destruct b; reflexivity. Qed.

Arguments copy_node : simpl never.

Lemma mem_true name names : mem name names = true <-> In name names.
Proof.
  unfold mem. rewrite existsb_exists. split.
  - intros (x & I & E). apply String.eqb_eq in E. now subst.
  - intros I. exists name. split; [assumption|apply String.eqb_refl].
Qed.

Lemma mem_ignore_patterns pats names name :
  In name names ->
  mem name (ignore_patterns pats names) = name_ignored pats name.
Proof.
  intros I. apply eq_iff_eq_true. rewrite mem_true.
  unfold ignore_patterns, name_ignored, fnmatch.filter.
  rewrite in_flat_map, existsb_exists.
  split; intros (pat & Ip & H); exists pat; split; trivial.
  - now apply filter_In in H.
  - apply filter_In. now split.
Qed.

Lemma ignore_patterns_nil names : ignore_patterns [] names = [].
Proof. reflexivity. Qed.

(** The two results of the loop, entry by entry. *)
Lemma copy_entries_kept b rt pats ign src dst cur es :
  fst (copy_entries b rt pats ign src dst cur es) =
  flat_map (fun '(name, k) =>
              if mem name ign then []
              else match fst (copy_node b rt pats (posixpath.join src name)
                                (posixpath.join dst name) (cur ++ [name]) k) with
                   | Some k' => [(name, k')]
                   | None => []
                   end) es.
Proof.
  induction es as [|[name k] es IH]; [reflexivity|]. simpl.
  destruct (mem name ign); [assumption|]. simpl. rewrite IH.
  destruct (fst (copy_node _ _ _ _ _ _ _)); reflexivity.
Qed.

Lemma copy_entries_errors b rt pats ign src dst cur es :
  snd (copy_entries b rt pats ign src dst cur es) =
  flat_map (fun '(name, k) =>
              if mem name ign then []
              else snd (copy_node b rt pats (posixpath.join src name)
                          (posixpath.join dst name) (cur ++ [name]) k)) es.
Proof.
  induction es as [|[name k] es IH]; [reflexivity|]. simpl.
  destruct (mem name ign); [assumption|]. simpl. now rewrite IH.
Qed.

Lemma copy_entries_In b rt pats ign src dst cur es name k' :
  In (name, k') (fst (copy_entries b rt pats ign src dst cur es)) <->
  exists k, In (name, k) es /\ mem name ign = false /\
            fst (copy_node b rt pats (posixpath.join src name)
                   (posixpath.join dst name) (cur ++ [name]) k) = Some k'.
Proof.
  rewrite copy_entries_kept, in_flat_map. split.
  - intros ([c k] & I & H). destruct (mem c ign) eqn:M; [contradiction|].
    destruct (fst (copy_node _ _ _ _ _ _ _)) eqn:C; [|contradiction].
    destruct H as [[= -> ->]|[]]. eauto.
  - intros (k & I & M & C). exists (name, k). split; [assumption|].
    rewrite M, C. now left.
Qed.

Section copy_properties.
Variables (rt : node) (pats : list string).

Let ok (c : string) : bool := negb (name_ignored pats c).

Lemma copy_names_ok b : forall n src dst cur copy errs,
  copy_node b rt pats src dst cur n = (Some copy, errs) ->
  all_names ok copy = true.
Proof.
  induction b as [|b IHb];
    induction n as [d r|t|l es IH] using node_rect'; intros src dst cur copy errs;
    rewrite ?copy_node_file, ?copy_node_link, ?copy_node_dir.
  all: try (unfold copy2, failed; destruct r; intros [= <- <-]; reflexivity).
  all: try (unfold failed; discriminate).
  all: try (destruct l; [|unfold failed; discriminate]; cbv zeta;
            intros [= <- <-]; simpl; apply forallb_forall; intros [c k'] I;
            apply copy_entries_In in I; destruct I as (k & I & M & C);
            rewrite mem_ignore_patterns in M
              by (apply in_map_iff; exists (c, k); auto);
            unfold ok; rewrite M; simpl;
            rewrite Forall_forall in IH;
            destruct (copy_node _ rt pats (posixpath.join src c)
                        (posixpath.join dst c) (cur ++ [c]) k) as [o e] eqn:Ck;
            simpl in C; subst o; exact (IH _ I _ _ _ _ _ Ck)).
  destruct (String.eqb t ""); [unfold failed; discriminate|].
  destruct (walk b rt rt [] _) as [ph m| |]; try (unfold failed; discriminate).
  apply IHb.
Qed.



End copy_properties.


(** ** The run: create_backup *)

Lemma for_each_app {A} (l1 l2 : list A) body w :
  for_each (l1 ++ l2) body w =
  match for_each l1 body w with
  | (Return _, w1) => for_each l2 body w1
  | (Raise e, w1) => (Raise e, w1)
  end.
Proof.
  revert w. induction l1 as [|x l1 IH]; intros w; simpl; [reflexivity|].
  unfold bind. destruct (body x w) as [[[]|e] w1]; [apply IH|reflexivity].
Qed.

(** One iteration of the loop never raises, adds messages at the end of
    the log, and only adds to the file tree. *)
Lemma backup_project_spec base p w :
  exists msgs fs',
    backup_project log_message base p w
    = (Return tt, mkWorld fs' (log w ++ msgs))
    /\ extends (fs w) fs'.
Proof.
  unfold backup_project, bind, os_path_exists, try_except, shutil_copytree,
    log_message; simpl.
  destruct (path_exists (fs w) (path p)); simpl.
  - destruct (copytree (fs w) (path p) _ _) as [fs' [d|e]] eqn:C; simpl;
      rewrite <- app_assoc; do 2 eexists; (split; [reflexivity|]).
    all: revert C; unfold copytree;
      repeat match goal with
      | |- context [match ?x with _ => _ end] => destruct x eqn:?
      end; intros [= <- ?]; try apply extends_refl; apply extends_create.
  - exists [PathNotFound (path p)], (fs w). split; [reflexivity|apply extends_refl].
Qed.

Lemma for_each_backup_spec base ps : forall w,
  exists msgs fs',
    for_each ps (backup_project log_message base) w
    = (Return tt, mkWorld fs' (log w ++ msgs))
    /\ extends (fs w) fs'.
Proof.
  induction ps as [|p ps IH]; intros w; simpl.
  - exists [], (fs w). rewrite app_nil_r. destruct w. split; [reflexivity|apply extends_refl].
  - unfold bind. destruct (backup_project_spec base p w) as (m1 & f1 & -> & E1).
    destruct (IH (mkWorld f1 (log w ++ m1))) as (m2 & f2 & -> & E2). simpl in *.
    exists (m1 ++ m2), f2. rewrite app_assoc. split; [reflexivity|].
    eapply extends_trans; eassumption.
Qed.

Lemma for_each_backup_returns base ps w :
  for_each ps (backup_project log_message base) w
  = (Return tt, snd (for_each ps (backup_project log_message base) w)).
Proof. destruct (for_each_backup_spec base ps w) as (m & f & -> & _). reflexivity. Qed.

Lemma backup_project_returns base p w :
  backup_project log_message base p w
  = (Return tt, snd (backup_project log_message base p w)).
Proof. destruct (backup_project_spec base p w) as (m & f & -> & _). reflexivity. Qed.

(** The run once the destination folder is there. *)
Lemma create_backup_after_destination ts s w0 :
  let dest := backup_destination_folder s in
  let base := posixpath.join dest ("backup_" ++ ts) in
  let started := snd (log_message BackupStarting w0) in
  fst (ensure_destination dest started) = Return tt ->
  create_backup ts s log_message w0 =
  (Return (true, Some base),
   snd (log_message (BackupDone base)
          (snd (for_each (projects s) (backup_project log_message base)
                  (snd (ensure_destination dest started)))))).
Proof.
  intros dest base started H.
  unfold create_backup, bind, try_except. fold dest base.
  change (log_message BackupStarting w0) with (Return tt, started).
  cbv iota beta.
  destruct (ensure_destination dest started) as [[[]|e] w1]; [|discriminate].
  simpl snd. rewrite for_each_backup_returns. reflexivity.
Qed.

Lemma backup_project_eq base p w :
  backup_project log_message base p w =
  if path_exists (fs w) (path p) then
    match copytree (fs w) (path p) (posixpath.join base (name p))
                   (exclude_patterns_of p) with
    | (fs', inl _) =>
        (Return tt,
         mkWorld fs' (log w ++ [ProjectStarting (name p); ProjectDone (name p)]))
    | (fs', inr e) =>
        (Return tt,
         mkWorld fs' (log w ++ [ProjectStarting (name p);
                                ProjectError (name p) e]))
    end
  else (Return tt, mkWorld (fs w) (log w ++ [PathNotFound (path p)])).
Proof.
  unfold backup_project, bind, os_path_exists, try_except, shutil_copytree,
    log_message; simpl.
  destruct (path_exists (fs w) (path p)); simpl; [|reflexivity].
  destruct (copytree _ _ _ _) as [fs' [d|e]]; simpl; rewrite <- app_assoc;
    reflexivity.
Qed.

Lemma copytree_fresh fs src dst pats phys entries parent todo :
  resolve fs src = Found phys (Dir true entries) ->
  resolve fs dst = Missing parent todo ->
  copytree fs src dst pats =
  let r := copy_entries symloop_max (root fs) pats
             (ignore_patterns pats (map fst entries)) src dst phys entries in
  (create fs parent todo (fst r),
   match snd r with
   | [] => inl dst
   | _ => inr (ShutilError (snd r))
   end).
Proof.
  intros Hs Hd. unfold copytree. rewrite Hs, Hd, copy_node_dir. reflexivity.
Qed.

Lemma copytree_exists fs src dst pats phys entries q k :
  resolve fs src = Found phys (Dir true entries) ->
  resolve fs dst = Found q k ->
  copytree fs src dst pats = (fs, inr (OSError EEXIST dst)).
Proof. intros Hs Hd. unfold copytree. rewrite Hs, Hd. reflexivity. Qed.

Lemma path_exists_found fs p phys k :
  resolve fs p = Found phys k -> path_exists fs p = true.
Proof. unfold path_exists. now intros ->. Qed.

(** C2.  A project whose source path does not exist when the loop
    reaches it is recorded as missing (the "path not found" message, the
    file tree untouched), the loop goes on with the projects after it
    from that same state, and the run returns (True, backup_base_path).
    The run is one that got past lines 80-81: the destination folder
    exists or was created. *)
Theorem missing_source_is_skipped (ts : string) (s : Settings) (w0 : world)
  (before after : list Project) (p : Project) :
  let dest := backup_destination_folder s in
  let base := posixpath.join dest ("backup_" ++ ts) in
  let started := snd (log_message BackupStarting w0) in
  let w1 := snd (ensure_destination dest started) in
  let w2 := snd (for_each before (backup_project log_message base) w1) in
  let w3 := mkWorld (fs w2) (log w2 ++ [PathNotFound (path p)]) in
  projects s = before ++ p :: after ->
  fst (ensure_destination dest started) = Return tt ->
  os.path_exists (fs w2) (path p) = false ->
  backup_project log_message base p w2 = (Return tt, w3)
  /\ create_backup ts s log_message w0 =
       (Return (true, Some base),
        snd (log_message (BackupDone base)
               (snd (for_each after (backup_project log_message base) w3)))).
Proof.
  intros dest base started w1 w2 w3 Hps Hdest Hmissing.
  assert (Hp : backup_project log_message base p w2 = (Return tt, w3)).
  { unfold backup_project, bind, os_path_exists. rewrite Hmissing. reflexivity. }
  split; [exact Hp|].
  rewrite create_backup_after_destination by exact Hdest.
  fold dest base started w1. rewrite Hps, for_each_app.
  rewrite for_each_backup_returns. fold w2. simpl for_each. unfold bind at 1.
  rewrite Hp. reflexivity.
Qed.

(** The destination step on the empty string: nothing resolves, nothing
    can be created. *)
Lemma ensure_destination_empty w :
  ensure_destination "" w = (Raise (OSError ENOENT ""), w).
Proof. reflexivity. Qed.

Lemma create_backup_empty_destination ts s w0 :
  backup_destination_folder s = "" ->
  create_backup ts s log_message w0 =
  (Return (false, None),
   mkWorld (fs w0) (log w0 ++ [BackupStarting; BackupError (OSError ENOENT "")])).
Proof.
  intros H. unfold create_backup, bind, try_except. rewrite H.
  change (log_message BackupStarting w0)
    with (Return tt, mkWorld (fs w0) (log w0 ++ [BackupStarting])).
  cbv iota beta. rewrite ensure_destination_empty.
  unfold log_message, ret. simpl. rewrite <- app_assoc. reflexivity.
Qed.

(** C9.  With backup_destination_folder == "" the run fails as a whole:
    os.path.exists("") is false, os.makedirs("") raises, the handler at
    line 108 logs the error and create_backup returns (False, None); the
    file tree is unchanged, so no snapshot is made.  The engine survives:
    the backup thread ends, last_backup_path, the scheduler and its jobs
    are as before, and the next trigger starts a new backup thread. *)
Theorem empty_destination_fails_run (ts : string) (self : BackupApp.t) :
  backup_destination_folder (settings self) = "" ->
  create_backup ts (settings self) log_message (w self) =
    (Return (false, None),
     mkWorld (fs (w self))
       (log (w self) ++ [BackupStarting; BackupError (OSError ENOENT "")]))
  /\ (backup_active self = true ->
      let self' := backup_task ts self in
      fs (w self') = fs (w self)
      /\ last_backup_path self' = last_backup_path self
      /\ backup_active self' = false
      /\ is_running self' = is_running self
      /\ jobs self' = jobs self
      /\ scheduler_thread self' = scheduler_thread self
      /\ backup_active (manual_backup self') = true
      /\ threads_started (manual_backup self') = S (threads_started self)).
Proof.
  intros H. pose proof (create_backup_empty_destination ts _ (w self) H) as C.
  split; [exact C|]. intros A self'. subst self'.
  unfold backup_task. rewrite C.
  destruct self; simpl. repeat split.
Qed.

(** ** Shell patterns: the matcher and the documentation agree *)










(** ** The tree copy, path by path *)

Lemma join_all_cons base c p :
  join_all base (c :: p) = join_all (posixpath.join base c) p.
Proof. reflexivity. Qed.

Section copy_paths.
Variables (rt : node) (pats : list string).

Lemma reaches_copied b n cur p m :
  reaches rt b n cur p m -> kept_names pats p ->
  forall src dst,
    copied_as m p src dst (copy_node b rt pats src dst cur n).
Proof.
  induction 1 as [b d r cur|b l es cur|b es cur c k p m I R IH
                 |b t cur phys k p m T W R IH|t cur];
    intros K src dst.
  - rewrite copy_node_file. unfold copy2, failed.
    destruct r; simpl; [|now left]. eexists. split; [reflexivity|constructor].
  - rewrite copy_node_dir. destruct l; cbv zeta; simpl; [|now left].
    do 2 eexists. split; [reflexivity|constructor].
  - inversion K as [|? ? Kc Kp]; subst. specialize (IH Kp).
    rewrite copy_node_dir. cbv zeta.
    specialize (IH (posixpath.join src c) (posixpath.join dst c)).
    assert (M : mem c (ignore_patterns pats (map fst es)) = false).
    { rewrite mem_ignore_patterns; [exact Kc|].
      apply in_map_iff. exists (c, k). auto. }
    assert (E : forall e,
      In e (snd (copy_node b rt pats (posixpath.join src c)
                   (posixpath.join dst c) (cur ++ [c]) k)) ->
      In e (snd (copy_entries b rt pats (ignore_patterns pats (map fst es))
                   src dst cur es))).
    { intros e Ie. rewrite copy_entries_errors. apply in_flat_map.
      exists (c, k). split; [exact I|]. now rewrite M. }
    assert (S : forall k'' x,
      fst (copy_node b rt pats (posixpath.join src c)
             (posixpath.join dst c) (cur ++ [c]) k) = Some k'' ->
      at_path k'' p x ->
      at_path (Dir true (fst (copy_entries b rt pats
                                (ignore_patterns pats (map fst es))
                                src dst cur es))) (c :: p) x).
    { intros k'' x C A. econstructor; [|exact A].
      apply copy_entries_In. exists k. auto. }
    unfold copied_as in *. rewrite !join_all_cons.
    destruct m as [d [|]|t|[|] es0]; cbn [fst snd].
    + destruct IH as (k'' & C & A). eexists. split; [reflexivity|eauto].
    + auto.
    + auto.
    + destruct IH as (k'' & es' & C & A). do 2 eexists.
      split; [reflexivity|eauto].
    + auto.
  - rewrite copy_node_link. apply String.eqb_neq in T. rewrite T, W.
    now apply IH.
  - rewrite copy_node_link. simpl. now left.
Qed.

Lemma copied_reaches b : forall n src dst cur k' p x,
  fst (copy_node b rt pats src dst cur n) = Some k' ->
  at_path k' p x ->
  kept_names pats p /\ exists m, reaches rt b n cur p m /\ mirrors x m.
Proof.
  induction b as [|b IHb];
    induction n as [d r|t|l es IH] using node_rect';
    intros src dst cur k' p x;
    rewrite ?copy_node_file, ?copy_node_link, ?copy_node_dir.
  all: try (unfold copy2, failed; destruct r; simpl; [|discriminate];
            intros [= <-] A; inversion A; subst;
            split; [constructor|];
            eexists; split; [constructor|left; eauto]).
  all: try (unfold failed; simpl; discriminate).
  all: try (destruct l; [|unfold failed; simpl; discriminate]; cbv zeta;
            cbn [fst]; intros [= <-] A; inversion A as [|? ? c k'' p' ? I A']; subst;
            [split; [constructor|]; eexists; split; [constructor|right; eauto]|];
            apply copy_entries_In in I; destruct I as (k & I & M & C);
            rewrite mem_ignore_patterns in M
              by (apply in_map_iff; exists (c, k); auto);
            rewrite Forall_forall in IH;
            destruct (IH _ I _ _ _ _ _ _ C A') as (Kp & m & R & Mi);
            split; [now constructor|];
            exists m; split; [econstructor; eassumption|exact Mi]).
  destruct (String.eqb_spec t "") as [|T]; [unfold failed; simpl; discriminate|].
  destruct (walk b rt rt [] _) as [ph m0| |] eqn:W;
    try (unfold failed; simpl; discriminate).
  intros C A. destruct (IHb _ _ _ _ _ _ _ C A) as (K & m & R & Mi).
  split; [exact K|]. exists m. split; [|exact Mi].
  econstructor; eassumption.
Qed.

End copy_paths.





(** C10, as amended.  Two projects with the same name, both sources
    listable directories, the snapshot subdirectory not there before the
    first and outside what the first copy reads: the first project's
    tree is created at backup_base_path/name, every readable file the
    copy arrives at in it; the second project's copytree raises
    FileExistsError for that path, which is logged as that project's
    error with the file tree unchanged; at the end of the run the first
    tree is still in place and the run returns
    (True, backup_base_path). *)
Theorem same_name_second_copy_fails (ts : string) (s : Settings) (w0 : world)
  (before between after : list Project) (p1 p2 : Project)
  (phys1 phys2 parent todo : list string)
  (entries1 entries2 : list (string * node)) :
  let dest := backup_destination_folder s in
  let base := posixpath.join dest ("backup_" ++ ts) in
  let started := snd (log_message BackupStarting w0) in
  let loop ps w := snd (for_each ps (backup_project log_message base) w) in
  let dst := posixpath.join base (name p1) in
  let w1 := snd (ensure_destination dest started) in
  let w2 := loop before w1 in
  let w3 := loop [p1] w2 in
  let w4 := loop between w3 in
  let wf := snd (create_backup ts s log_message w0) in
  projects s = before ++ p1 :: between ++ p2 :: after ->
  name p2 = name p1 ->
  fst (ensure_destination dest started) = Return tt ->
  resolve (fs w2) (path p1) = Found phys1 (Dir true entries1) ->
  resolve (fs w2) dst = Missing parent todo ->
  outside parent symloop_max (root (fs w2)) (exclude_patterns_of p1) phys1
    (Dir true entries1) = true ->
  resolve (fs w4) (path p2) = Found phys2 (Dir true entries2) ->
  exists kept1,
    resolve (fs w3) dst = Found (parent ++ todo) (Dir true kept1)
    /\ (forall q data,
          kept_names (exclude_patterns_of p1) q ->
          reaches (root (fs w2)) symloop_max (Dir true entries1) phys1 q
            (File data true) ->
          at_path (Dir true kept1) q (File data true))
    /\ backup_project log_message base p2 w4 =
         (Return tt,
          mkWorld (fs w4)
            (log w4 ++ [ProjectStarting (name p2);
                        ProjectError (name p2) (OSError EEXIST dst)]))
    /\ (exists k, resolve (fs wf) dst = Found (parent ++ todo) k
                  /\ ext (Dir true kept1) k)
    /\ In (ProjectError (name p2) (OSError EEXIST dst)) (log wf)
    /\ fst (create_backup ts s log_message w0) = Return (true, Some base).
Proof.
  intros dest base started loop dst w1 w2 w3 w4 wf
         Hps Hname Hdest Hsrc1 Hdst1 _ Hsrc2.
  set (kept1 :=
    fst (copy_entries symloop_max (root (fs w2)) (exclude_patterns_of p1)
           (ignore_patterns (exclude_patterns_of p1) (map fst entries1))
           (path p1) dst phys1 entries1)).
  exists kept1.
  (* the first project *)
  assert (H3 : fs w3 = create (fs w2) parent todo kept1).
  { unfold w3, loop. simpl for_each. unfold bind.
    rewrite backup_project_eq, (path_exists_found _ _ _ _ Hsrc1).
    fold dst. rewrite (copytree_fresh _ _ _ _ _ _ _ _ Hsrc1 Hdst1).
    cbv zeta. fold kept1.
    destruct (snd (copy_entries _ _ _ _ _ _ _ _)); reflexivity. }
  assert (R3 : resolve (fs w3) dst = Found (parent ++ todo) (Dir true kept1)).
  { rewrite H3. apply resolve_create. exact Hdst1. }
  (* what lies between only adds to the tree *)
  destruct (for_each_backup_spec base between w3) as (m4 & f4 & E4 & X4).
  assert (F4 : fs w4 = f4) by (unfold w4, loop; rewrite E4; reflexivity).
  destruct (resolve_extends _ _ _ _ _ X4 R3) as (k4 & R4 & Ek4).
  rewrite <- F4 in R4, X4.
  (* the second project *)
  assert (H5 : backup_project log_message base p2 w4 =
               (Return tt,
                mkWorld (fs w4)
                  (log w4 ++ [ProjectStarting (name p2);
                              ProjectError (name p2) (OSError EEXIST dst)]))).
  { rewrite backup_project_eq, (path_exists_found _ _ _ _ Hsrc2), Hname.
    fold dst. rewrite (copytree_exists _ _ _ _ _ _ _ _ Hsrc2 R4). reflexivity. }
  (* the whole run *)
  pose proof (create_backup_after_destination ts s w0 Hdest) as C.
  fold dest base started w1 in C.
  assert (L : for_each (projects s) (backup_project log_message base) w1 =
              for_each after (backup_project log_message base)
                (mkWorld (fs w4)
                   (log w4 ++ [ProjectStarting (name p2);
                               ProjectError (name p2) (OSError EEXIST dst)]))).
  { rewrite Hps, for_each_app, for_each_backup_returns. fold (loop before w1) w2.
    change (p1 :: between ++ p2 :: after) with ([p1] ++ between ++ p2 :: after).
    rewrite for_each_app, for_each_backup_returns. fold (loop [p1] w2) w3.
    rewrite for_each_app, for_each_backup_returns. fold (loop between w3) w4.
    simpl for_each. unfold bind at 1. rewrite H5. reflexivity. }
  destruct (for_each_backup_spec base after
              (mkWorld (fs w4)
                 (log w4 ++ [ProjectStarting (name p2);
                             ProjectError (name p2) (OSError EEXIST dst)])))
    as (m6 & f6 & E6 & X6).
  assert (Wf : wf = mkWorld f6
                 (((log w4 ++ [ProjectStarting (name p2);
                               ProjectError (name p2) (OSError EEXIST dst)])
                   ++ m6) ++ [BackupDone base])).
  { unfold wf. rewrite C, L, E6. reflexivity. }
  split; [exact R3|]. split; [|split; [exact H5|split; [|split]]].
  - intros q data K Re.
    pose proof (reaches_copied (root (fs w2)) (exclude_patterns_of p1)
                  _ _ _ _ _ Re K (path p1) dst) as H.
    rewrite copy_node_dir in H. cbv zeta in H. fold kept1 in H. simpl in H.
    destruct H as (k' & [= <-] & A). exact A.
  - simpl in X6. destruct (resolve_extends _ _ _ _ _ X6 R4) as (k6 & R6 & Ek6).
    exists k6. rewrite Wf. split; [exact R6|]. eapply ext_trans; eassumption.
  - rewrite Wf. simpl. rewrite !in_app_iff. left. left. right. simpl. auto.
  - rewrite C. reflexivity.
Qed.

(** C10, the claim as stated fails: both source paths exist, but the
    first is a regular file.  The first project's copy fails
    (NotADirectoryError) and makes nothing, and the second project, of
    the same name, is copied without error. *)
Lemma first_source_a_file_second_copy_succeeds :
  path_exists tmp_tree "/src/a.txt" = true
  /\ path_exists tmp_tree "/src" = true
  /\ log (snd (create_backup "t" same_name_settings log_message
                 (mkWorld tmp_tree [])))
     = [BackupStarting;
        ProjectStarting "p";
        ProjectError "p" (OSError ENOTDIR "/src/a.txt");
        ProjectStarting "p";
        ProjectDone "p";
        BackupDone "/bk/backup_t"]
  /\ path_exists
       (fs (snd (create_backup "t" same_name_settings log_message
                   (mkWorld tmp_tree [])))) "/bk/backup_t/p/sub/c.tmp"
     = true.
Proof. repeat split. Qed.

(** ** The tree copy *)

Lemma flat_map_ext_in {A B} (f g : A -> list B) l :
  (forall a, In a l -> f a = g a) -> flat_map f l = flat_map g l.
Proof.
  induction l as [|a l IH]; intros H; simpl; [reflexivity|].
  rewrite (H a (or_introl eq_refl)), IH; [reflexivity|].
  intros; apply H; now right.
Qed.

Lemma mem_ignored_entry pats (entries : list (string * node)) c k :
  In (c, k) entries ->
  mem c (ignore_patterns pats (map fst entries)) = name_ignored pats c.
Proof.
  intros I. apply mem_ignore_patterns. apply in_map_iff. exists (c, k). auto.
Qed.

(** C5, as amended.  When entry x of a project fails and entry y can be
    copied, the copy goes through every entry: y is in the snapshot
    directory, which stays in place with everything copied (no rollback),
    and the project is logged as failed with the shutil.Error whose list
    holds every failure of every entry, in scandir order (so those of x
    among them), not a summary of the first failure and a count.  An
    unreadable file x is in that list with PermissionError under its
    source and destination names; a readable file y is copied byte for
    byte.  The destination lies outside what the copy reads. *)
Theorem failed_entries_do_not_stop_copy (w : world) (base : string)
  (p : Project) (phys parent todo : list string)
  (entries : list (string * node)) (x y : string) (kx ky ky' : node) :
  let src := path p in
  let dst := posixpath.join base (name p) in
  let pats := exclude_patterns_of p in
  let copy_of (c : string) (k : node) :=
    copy_node symloop_max (root (fs w)) pats (posixpath.join src c)
              (posixpath.join dst c) (phys ++ [c]) k in
  let r := copy_entries symloop_max (root (fs w)) pats
             (ignore_patterns pats (map fst entries)) src dst phys entries in
  let w' := snd (backup_project log_message base p w) in
  resolve (fs w) src = Found phys (Dir true entries) ->
  resolve (fs w) dst = Missing parent todo ->
  outside parent symloop_max (root (fs w)) pats phys (Dir true entries)
  = true ->
  In (x, kx) entries -> name_ignored pats x = false ->
  snd (copy_of x kx) <> [] ->
  In (y, ky) entries -> name_ignored pats y = false ->
  fst (copy_of y ky) = Some ky' ->
  log w' = log w ++ [ProjectStarting (name p);
                     ProjectError (name p) (ShutilError (snd r))]
  /\ snd r = flat_map (fun '(c, k) =>
                         if name_ignored pats c then [] else snd (copy_of c k))
                      entries
  /\ incl (snd (copy_of x kx)) (snd r)
  /\ resolve (fs w') dst = Found (parent ++ todo) (Dir true (fst r))
  /\ In (y, ky') (fst r)
  /\ (forall data, kx = File data false ->
      In (posixpath.join src x, posixpath.join dst x,
          (EACCES, posixpath.join src x)) (snd r))
  /\ (forall data, ky = File data true -> ky' = File data true).
Proof.
  intros src dst pats copy_of r w' Hsrc Hdst _ Ix Nx Fx Iy Ny Cy.
  assert (E : snd r = flat_map (fun '(c, k) =>
                if name_ignored pats c then [] else snd (copy_of c k)) entries).
  { unfold r. rewrite copy_entries_errors. apply flat_map_ext_in.
    intros [c k] I. now rewrite (mem_ignored_entry _ _ _ _ I). }
  assert (X : incl (snd (copy_of x kx)) (snd r)).
  { intros e Ie. rewrite E. apply in_flat_map. exists (x, kx).
    split; [assumption|]. now rewrite Nx. }
  assert (W : backup_project log_message base p w =
              (Return tt,
               mkWorld (create (fs w) parent todo (fst r))
                 (log w ++ [ProjectStarting (name p);
                            ProjectError (name p) (ShutilError (snd r))]))).
  { rewrite backup_project_eq. fold src dst pats.
    rewrite (path_exists_found _ _ _ _ Hsrc).
    rewrite (copytree_fresh _ _ _ _ _ _ _ _ Hsrc Hdst).
    cbv zeta. fold r. destruct (snd r) as [|e errs] eqn:S; [|reflexivity].
    destruct (snd (copy_of x kx)) as [|e0 l0]; [now elim Fx|].
    elim (X e0). now left. }
  unfold w'. rewrite W. cbn [snd fs log].
  split; [reflexivity|]. split; [exact E|]. split; [exact X|].
  split; [apply resolve_create; exact Hdst|]. split; [|split].
  - apply copy_entries_In. exists ky. repeat split; try assumption.
    now rewrite (mem_ignored_entry _ _ _ _ Iy).
  - intros data ->. apply X. unfold copy_of. rewrite copy_node_file.
    simpl. now left.
  - intros data ->. unfold copy_of in Cy. rewrite copy_node_file in Cy.
    simpl in Cy. congruence.
Qed.

(** C5, the claim as stated fails: no summary of the first failure and
    the number of failures gives the logged detail.  With x and y
    unreadable, or x and z, the first failure and the count are the same
    and the details differ. *)
Lemma copy_error_detail_lists_every_failure :
  ~ exists summarize, detail_is_first_and_count summarize.
Proof.
  intros [summarize H].
  pose proof (H (locked_tree ["x"; "y"]) "/src" "/bk/p" [] _ _ eq_refl) as H1.
  pose proof (H (locked_tree ["x"; "z"]) "/src" "/bk/p" [] _ _ eq_refl) as H2.
  simpl in H1, H2. rewrite <- H2 in H1. discriminate H1.
Qed.




Lemma self_link_is_cut_by_the_link_limit :
  let r := shutil.copytree cyclic_tree "/src" "/bk/snap" [] in
  (exists s d f, snd r = inr (ShutilError [(s, d, (ELOOP, f))]))
  /\ (exists snap, get (root (fst r)) ["bk"; "snap"] = Some snap
                   /\ nesting "loop" 100 snap = 40).
Proof.
  split.
  - do 3 eexists. vm_compute. reflexivity.
  - eexists. split; vm_compute; reflexivity.
Qed.

(** ** The application: triggers, schedule, stop, settings *)

Lemma manual_backup_active (self : BackupApp.t) :
  backup_active self = true ->
  manual_backup self =
    set_w (mkWorld (fs (w self))
             (log (w self) ++ [ManualRequested; AlreadyRunning])) self.
Proof.
  intros H. destruct self as [s bt lp ir ob d [f l] j st n ts rp].
  unfold backup_active in H. simpl in H.
  unfold manual_backup, app_log, backup_active, set_w, log_message. simpl.
  destruct bt as [[|]|]; try discriminate. simpl.
  rewrite <- app_assoc. reflexivity.
Qed.

Lemma count_already_running_app l1 l2 :
  count_already_running (l1 ++ l2)
  = count_already_running l1 + count_already_running l2.
Proof. unfold count_already_running. now rewrite filter_app, length_app. Qed.

(** Triggers fired one after the other while the backup thread is alive. *)
Lemma triggers_while_active (due : list schedule.Job) : forall self,
  backup_active self = true ->
  let self' := fold_left (fun a _ => manual_backup a) due self in
  backup_active self' = true
  /\ threads_started self' = threads_started self
  /\ backup_thread self' = backup_thread self
  /\ fs (w self') = fs (w self)
  /\ jobs self' = jobs self
  /\ now self' = now self
  /\ count_already_running (all_log_content self')
     = count_already_running (all_log_content self) + List.length due.
Proof.
  induction due as [|j due IH]; intros self A; simpl.
  - repeat split; auto; lia.
  - rewrite (manual_backup_active self A).
    set (self1 := set_w _ self).
    assert (A1 : backup_active self1 = true) by (destruct self; exact A).
    destruct (IH self1 A1) as (H1 & H2 & H3 & H4 & H5 & H6 & H7).
    repeat split; try (destruct self; assumption).
    rewrite H7. unfold self1, all_log_content. destruct self; simpl.
    rewrite count_already_running_app. unfold count_already_running at 2.
    simpl. lia.
Qed.

(** C1.  While the backup thread is alive a trigger starts nothing: a
    manual trigger leaves the number of started threads and the thread
    itself as they were, logs the request followed by exactly one
    "already in progress" message, touches neither the file tree nor the
    job list, and when the running backup ends no held-back run starts;
    a run_pending() of the scheduler thread does the same once per job
    that is due. *)
Theorem overlapping_trigger_is_dropped (self : BackupApp.t) :
  backup_active self = true ->
  (let self' := manual_backup self in
   threads_started self' = threads_started self
   /\ backup_thread self' = backup_thread self
   /\ all_log_content self'
      = all_log_content self ++ [ManualRequested; AlreadyRunning]
   /\ count_already_running (all_log_content self')
      = S (count_already_running (all_log_content self))
   /\ fs (w self') = fs (w self)
   /\ jobs self' = jobs self
   /\ forall ts, threads_started (backup_task ts self') = threads_started self
                 /\ backup_active (backup_task ts self') = false)
  /\ (scheduler_thread self = RunPending ->
      let self' := step SchedulerRuns self in
      let due := schedule.runnable (now self) (jobs self) in
      threads_started self' = threads_started self
      /\ backup_thread self' = backup_thread self
      /\ count_already_running (all_log_content self')
         = count_already_running (all_log_content self) + List.length due
      /\ fs (w self') = fs (w self)
      /\ List.length (jobs self') = List.length (jobs self)).
Proof.
  intros A. split.
  - rewrite (manual_backup_active self A).
    destruct self as [s bt lp ir ob d [f l] j st n ts rp]; simpl.
    unfold all_log_content; simpl. repeat split.
    + rewrite count_already_running_app. unfold count_already_running at 2.
      simpl. lia.
    + unfold backup_task; simpl.
      destruct (create_backup _ _ _ _) as [[[[] bp]|e] w']; reflexivity.
    + unfold backup_task; simpl.
      destruct (create_backup _ _ _ _) as [[[[] bp]|e] w']; reflexivity.
  - intros Pc self' due. unfold self', step, scheduler_step. rewrite Pc.
    unfold run_pending. fold due.
    destruct (triggers_while_active due self A) as (H1 & H2 & H3 & H4 & H5 & H6 & H7).
    set (self1 := fold_left _ due self) in *.
    destruct self1; simpl in *. repeat split; try assumption.
    subst. unfold schedule.after_run_pending. now rewrite length_map.
Qed.

(** C6, as amended.  Saving a positive interval starts no backup and
    leaves the scheduler thread and the clock alone; it drops every job
    and schedules one new job, so nothing fires at the old cadence, and
    the countdown starts again at the moment of the call: nothing is due
    before now + 60 * interval seconds, the job is due from then on, and
    after it has run at time t it is next due at t + 60 * interval. *)
Theorem interval_change_restarts_countdown (self : BackupApp.t) (interval : Z) :
  (0 < interval)%Z ->
  let self' := save_interval (Some interval) self in
  let due := (now self + 60 * interval)%Z in
  jobs self' = [schedule.mkJob interval due]
  /\ backup_interval_minutes (settings self') = interval
  /\ threads_started self' = threads_started self
  /\ backup_thread self' = backup_thread self
  /\ all_log_content self' = all_log_content self ++ [IntervalChanged interval]
  /\ scheduler_thread self' = scheduler_thread self
  /\ is_running self' = is_running self
  /\ now self' = now self
  /\ (forall t, schedule.runnable t (jobs self')
                = if (due <=? t)%Z then jobs self' else [])
  /\ schedule.runnable (now self') (jobs self') = []
  /\ (forall t, (due <= t)%Z ->
                schedule.after_run_pending t (jobs self')
                = [schedule.mkJob interval (t + 60 * interval)]).
Proof.
  intros H self' due.
  assert (E : self' =
              set_jobs [schedule.mkJob interval due]
                (app_log (IntervalChanged interval)
                   (set_settings
                      (mkSettings interval
                         (backup_destination_folder (settings self))
                         (projects (settings self))) self))).
  { unfold self', save_interval. apply Z.ltb_lt in H. rewrite H.
    destruct self; reflexivity. }
  assert (J : jobs self' = [schedule.mkJob interval due])
    by (rewrite E; destruct self; reflexivity).
  assert (N : now self' = now self)
    by (rewrite E; destruct self; reflexivity).
  assert (R : forall t, schedule.runnable t (jobs self')
                        = if (due <=? t)%Z then jobs self' else []).
  { intros t. rewrite J. unfold schedule.runnable, schedule.should_run. simpl.
    destruct (due <=? t)%Z; reflexivity. }
  split; [exact J|].
  split; [rewrite E; destruct self; reflexivity|].
  split; [rewrite E; destruct self; reflexivity|].
  split; [rewrite E; destruct self; reflexivity|].
  split; [rewrite E; destruct self; reflexivity|].
  split; [rewrite E; destruct self; reflexivity|].
  split; [rewrite E; destruct self; reflexivity|].
  split; [exact N|].
  split; [exact R|].
  split.
  - rewrite R, N. unfold due.
    destruct (Z.leb_spec (now self + 60 * interval) (now self));
      [lia|reflexivity].
  - intros t Ht. rewrite J.
    unfold schedule.after_run_pending, schedule.should_run,
      schedule.schedule_next_run, schedule.period. simpl.
    destruct (Z.leb_spec due t); [reflexivity|lia].
Qed.

(** C6, the claim as stated fails: nine minutes into a ten-minute
    countdown, saving the interval 10 moves the pending run from second
    600 to second 1140; the instant the countdown is measured from is not
    kept. *)
Lemma interval_change_moves_pending_run :
  ~ interval_change_keeps_timer app_after_nine_minutes 10
  /\ map schedule.next_run (jobs app_after_nine_minutes) = [600%Z]
  /\ map schedule.next_run
       (jobs (save_interval (Some 10%Z) app_after_nine_minutes)) = [1140%Z].
Proof.
  split; [|split; reflexivity].
  intros (_ & _ & H & _). vm_compute in H. discriminate H.
Qed.

Lemma backup_task_fields ts self :
  let self' := backup_task ts self in
  is_running self' = is_running self
  /\ destroyed self' = destroyed self
  /\ scheduler_thread self' = scheduler_thread self
  /\ run_pending_calls self' = run_pending_calls self.
Proof.
  unfold backup_task.
  destruct (create_backup _ _ _ _) as [[[[] bp]|e] w']; destruct self;
    simpl; repeat split.
Qed.

Lemma manual_backup_fields self :
  let self' := manual_backup self in
  is_running self' = is_running self
  /\ destroyed self' = destroyed self
  /\ scheduler_thread self' = scheduler_thread self
  /\ run_pending_calls self' = run_pending_calls self.
Proof.
  unfold manual_backup. destruct self as [s bt lp ir ob d [f l] j st n ts rp].
  unfold backup_active, app_log; simpl.
  destruct bt as [[|]|]; simpl; repeat split.
Qed.

Lemma triggers_fields (due : list schedule.Job) : forall self,
  let self' := fold_left (fun a _ => manual_backup a) due self in
  is_running self' = is_running self
  /\ destroyed self' = destroyed self
  /\ scheduler_thread self' = scheduler_thread self
  /\ run_pending_calls self' = run_pending_calls self.
Proof.
  induction due as [|j due IH]; intros self; simpl; [repeat split|].
  destruct (IH (manual_backup self)) as (H1 & H2 & H3 & H4).
  destruct (manual_backup_fields self) as (G1 & G2 & G3 & G4).
  repeat split; congruence.
Qed.

Lemma stopped_step e self :
  is_running self = false -> destroyed self = true ->
  let self' := step e self in
  is_running self' = false
  /\ destroyed self' = true
  /\ run_pending_calls self' + calls_ahead self'
     = run_pending_calls self + calls_ahead self
  /\ calls_ahead self' <= calls_ahead self.
Proof.
  intros R D. destruct e; simpl; rewrite ?D; auto.
  - unfold scheduler_step, calls_ahead.
    destruct (scheduler_thread self) eqn:Pc; rewrite ?R.
    + destruct self; simpl in *; auto.
    + unfold run_pending.
      destruct (triggers_fields (schedule.runnable (now self) (jobs self)) self)
        as (H1 & H2 & H3 & H4).
      destruct (fold_left _ _ self); simpl in *.
      repeat split; try congruence; lia.
    + destruct self; simpl in *; auto.
    + rewrite Pc. auto.
  - destruct (backup_active self); auto.
    destruct (backup_task_fields timestamp_str self) as (H1 & H2 & H3 & H4).
    unfold calls_ahead. rewrite H1, H2, H3, H4. auto.
Qed.

Lemma stopped_run es : forall self,
  is_running self = false -> destroyed self = true ->
  run_pending_calls (run es self) + calls_ahead (run es self)
  = run_pending_calls self + calls_ahead self
  /\ calls_ahead (run es self) <= calls_ahead self.
Proof.
  induction es as [|e es IH]; intros self R D; [split; reflexivity|].
  destruct (stopped_step e self R D) as (R' & D' & H & L).
  destruct (IH _ R' D') as [H' L'].
  unfold run in *. simpl. split; [rewrite H'; exact H|lia].
Qed.

Lemma exit_step e self :
  is_running self = false -> destroyed self = true ->
  steps_to_exit (step e self)
  = match e with
    | SchedulerRuns => pred (steps_to_exit self)
    | _ => steps_to_exit self
    end.
Proof.
  intros R D. destruct e; simpl; rewrite ?D; auto.
  - unfold scheduler_step, steps_to_exit.
    destruct (scheduler_thread self) eqn:Pc; rewrite ?R, ?Pc;
      destruct self; reflexivity.
  - destruct (backup_active self); auto.
    destruct (backup_task_fields timestamp_str self) as (H1 & H2 & H3 & H4).
    unfold steps_to_exit. now rewrite H3.
Qed.

Lemma exit_run es : forall self,
  is_running self = false -> destroyed self = true ->
  steps_to_exit (run es self) = steps_to_exit self - scheduler_steps es.
Proof.
  induction es as [|e es IH]; intros self R D.
  - unfold scheduler_steps. simpl. lia.
  - destruct (stopped_step e self R D) as (R' & D' & _).
    unfold run in *. cbn [fold_left]. rewrite (IH _ R' D'), (exit_step e self R D).
    unfold scheduler_steps. destruct e; simpl; lia.
Qed.

(** C7, as amended.  on_closing clears is_running and returns without
    waiting for the scheduler thread, which stays where it was; whatever
    happens afterwards the thread calls run_pending() at most once more,
    and not at all unless it had already passed the loop test.  After
    three of its steps at the latest the thread has left scheduler_task;
    from then on it stays there and calls run_pending() no more. *)
Theorem stop_does_not_wait_for_scheduler (self : BackupApp.t)
  (es : list event) :
  let stopped := on_closing self in
  is_running stopped = false
  /\ scheduler_thread stopped = scheduler_thread self
  /\ run_pending_calls stopped = run_pending_calls self
  /\ run_pending_calls (run es stopped) <= S (run_pending_calls stopped)
  /\ (scheduler_thread self <> RunPending ->
      run_pending_calls (run es stopped) = run_pending_calls stopped)
  /\ (3 <= scheduler_steps es ->
      scheduler_thread (run es stopped) = Returned)
  /\ (scheduler_thread (run es stopped) = Returned ->
      forall es',
        scheduler_thread (run (es ++ es') stopped) = Returned
        /\ run_pending_calls (run (es ++ es') stopped)
           = run_pending_calls (run es stopped)).
Proof.
  intros stopped.
  assert (R : is_running stopped = false) by (destruct self; reflexivity).
  assert (D : destroyed stopped = true) by (destruct self; reflexivity).
  assert (P : scheduler_thread stopped = scheduler_thread self)
    by (destruct self; reflexivity).
  destruct (stopped_run es stopped R D) as [H L].
  assert (A : calls_ahead stopped <= 1)
    by (unfold calls_ahead; destruct (scheduler_thread stopped); lia).
  assert (Z : forall s, steps_to_exit s = 0 -> scheduler_thread s = Returned)
    by (intros s; unfold steps_to_exit; destruct (scheduler_thread s);
        congruence).
  assert (B : steps_to_exit stopped <= 3)
    by (unfold steps_to_exit; destruct (scheduler_thread stopped); lia).
  split; [exact R|]. split; [exact P|].
  split; [destruct self; reflexivity|]. split; [lia|].
  split; [|split].
  - intros N.
    assert (Z0 : calls_ahead stopped = 0).
    { unfold calls_ahead. rewrite P.
      destruct (scheduler_thread self); try reflexivity. now elim N. }
    lia.
  - intros S3. apply Z. rewrite (exit_run es stopped R D). lia.
  - intros E es'.
    destruct (stopped_run (es ++ es') stopped R D) as [H' L'].
    pose proof (exit_run es stopped R D) as X.
    pose proof (exit_run (es ++ es') stopped R D) as X'.
    assert (S : scheduler_steps (es ++ es')
                = scheduler_steps es + scheduler_steps es')
      by (unfold scheduler_steps; now rewrite filter_app, length_app).
    assert (X0 : steps_to_exit (run es stopped) = 0)
      by (unfold steps_to_exit; now rewrite E).
    assert (E' : scheduler_thread (run (es ++ es') stopped) = Returned)
      by (apply Z; lia).
    split; [exact E'|].
    unfold calls_ahead in H, H'. rewrite E in H. rewrite E' in H'. lia.
Qed.

(** C7, the claim as stated fails: with the scheduler thread between the
    loop test and run_pending() and a job due, on_closing returns while
    the thread has not returned, and the thread's next step makes a backup
    request after the closing message. *)
Lemma scheduler_fires_after_stop :
  ~ stop_is_final app_about_to_run_pending
  /\ scheduler_thread (on_closing app_about_to_run_pending) = RunPending
  /\ all_log_content (on_closing app_about_to_run_pending)
     = [ManualRequested; Closing]
  /\ all_log_content
       (run [SchedulerRuns] (on_closing app_about_to_run_pending))
     = [ManualRequested; Closing; ManualRequested; AlreadyRunning].
Proof.
  split; [|repeat split].
  intros [H _]. vm_compute in H. discriminate H.
Qed.




(** A settings file holding a bare number has no field at all, and the
    membership test on it raises. *)
Lemma scalar_settings_exit :
  fst (load_settings (mkDisk (Stored (JNumber 5)) true [])) = SysExit 1.
Proof. reflexivity. Qed.

(** ** The statements at concrete inputs *)

Lemma overlapping_trigger_is_dropped_witness :
  backup_active app_started = true
  /\ all_log_content (manual_backup app_started)
     = [ManualRequested; ManualRequested; AlreadyRunning]
  /\ threads_started (manual_backup app_started) = 1.
Proof.
  pose proof (overlapping_trigger_is_dropped app_started eq_refl) as H.
  destruct H as [(H1 & _ & H3 & _) _].
  split; [reflexivity|]. split; [exact H3|exact H1].
Defined.

Lemma missing_source_is_skipped_witness :
  os.path_exists tmp_tree "/nope" = false
  /\ fst (create_backup "t" (mkSettings 10 "/bk" [proj_gone; proj_src])
            log_message (mkWorld tmp_tree []))
     = Return (true, Some "/bk/backup_t").
Proof.
  split; [reflexivity|].
  rewrite (proj2 (missing_source_is_skipped "t"
                    (mkSettings 10 "/bk" [proj_gone; proj_src])
                    (mkWorld tmp_tree []) [] [proj_src] proj_gone
                    eq_refl eq_refl eq_refl)).
  reflexivity.
Defined.



Lemma failed_entries_do_not_stop_copy_witness :
  let w := mkWorld (locked_tree ["x"]) [] in
  let p := mkProject "p" "/src" None in
  resolve (fs w) "/bk/snap/p" = Missing ["bk"] ["snap"; "p"]
  /\ log (snd (backup_project log_message "/bk/snap" p w))
     = [ProjectStarting "p";
        ProjectError "p"
          (ShutilError [("/src/x", "/bk/snap/p/x", (EACCES, "/src/x"))])].
Proof.
  split; [reflexivity|].
  exact (proj1 (failed_entries_do_not_stop_copy
                  (mkWorld (locked_tree ["x"]) []) "/bk/snap"
                  (mkProject "p" "/src" None) ["src"] ["bk"] ["snap"; "p"]
                  _ "x" "y" (File bytes_hi false) (File bytes_hi true)
                  (File bytes_hi true)
                  eq_refl eq_refl eq_refl (or_introl eq_refl) eq_refl
                  ltac:(discriminate)
                  (or_intror (or_introl eq_refl)) eq_refl eq_refl)).
Defined.

Lemma interval_change_restarts_countdown_witness :
  (0 < 5)%Z
  /\ jobs (save_interval (Some 5%Z) app_after_nine_minutes)
     = [schedule.mkJob 5 840].
Proof.
  split; [reflexivity|].
  exact (proj1 (interval_change_restarts_countdown app_after_nine_minutes 5
                  eq_refl)).
Defined.

Lemma empty_destination_fails_run_witness :
  backup_destination_folder (settings app_without_destination) = ""
  /\ fst (create_backup "t" (settings app_without_destination) log_message
            (w app_without_destination))
     = Return (false, None).
Proof.
  split; [reflexivity|].
  rewrite (proj1 (empty_destination_fails_run "t" app_without_destination
                    eq_refl)).
  reflexivity.
Defined.

Lemma same_name_second_copy_fails_witness :
  let s := mkSettings 10 "/bk" [proj_src; proj_src] in
  name proj_src = name proj_src
  /\ fst (create_backup "t" s log_message (mkWorld tmp_tree []))
     = Return (true, Some "/bk/backup_t")
  /\ In (ProjectError "proj" (OSError EEXIST "/bk/backup_t/proj"))
        (log (snd (create_backup "t" s log_message (mkWorld tmp_tree [])))).
Proof.
  destruct (same_name_second_copy_fails "t"
              (mkSettings 10 "/bk" [proj_src; proj_src])
              (mkWorld tmp_tree []) [] [] [] proj_src proj_src
              ["src"] ["src"] ["bk"] ["backup_t"; "proj"] _ _
              eq_refl eq_refl eq_refl eq_refl eq_refl eq_refl eq_refl)
    as (kept1 & _ & _ & _ & _ & H4 & H5).
  split; [reflexivity|]. split; [exact H5|exact H4].
Defined.

Lemma stop_does_not_wait_for_scheduler_witness :
  scheduler_thread app_started <> RunPending
  /\ run_pending_calls
       (run [SchedulerRuns; TimePasses 600; SchedulerRuns; SchedulerRuns]
            (on_closing app_started))
     = run_pending_calls (on_closing app_started)
  /\ scheduler_thread
       (run [SchedulerRuns; TimePasses 600; SchedulerRuns; SchedulerRuns]
            (on_closing app_started))
     = Returned.
Proof.
  assert (N : scheduler_thread app_started <> RunPending) by discriminate.
  split; [exact N|].
  destruct (stop_does_not_wait_for_scheduler app_started
              [SchedulerRuns; TimePasses 600; SchedulerRuns; SchedulerRuns])
    as (_ & _ & _ & _ & H & E & _).
  split; [exact (H N)|]. apply E. unfold scheduler_steps. simpl. lia.
Defined.


(** ** More on the run *)

Lemma ensure_destination_cases dest w :
  (exists fs', ensure_destination dest w = (Return tt, mkWorld fs' (log w))
               /\ extends (fs w) fs' /\ path_exists fs' dest = true)
  \/ (exists e, ensure_destination dest w = (Raise (OSError e dest), w)).
Proof.
  unfold ensure_destination, bind, os_path_exists, os_makedirs, makedirs, ret.
  destruct (path_exists (fs w) dest) eqn:E; simpl.
  - left. exists (fs w). destruct w; simpl in *.
    split; [reflexivity|]. split; [apply extends_refl|exact E].
  - destruct (resolve (fs w) dest) as [ph k|parent todo|e] eqn:R.
    + right. eauto.
    + left. exists (create (fs w) parent todo []).
      split; [reflexivity|]. split; [apply extends_create|].
      unfold path_exists. now rewrite (resolve_create _ _ _ _ [] R).
    + right. eauto.
Qed.


Lemma backup_project_messages base p w :
  exists msgs fs',
    backup_project log_message base p w
    = (Return tt, mkWorld fs' (log w ++ msgs))
    /\ extends (fs w) fs'
    /\ forallb is_project_message msgs = true
    /\ exists m, List.filter is_outcome msgs = [m] /\ outcome_of p m.
Proof.
  rewrite backup_project_eq.
  destruct (path_exists (fs w) (path p)).
  - destruct (copytree (fs w) (path p) _ _) as [fs' [d|e]] eqn:C.
    + exists [ProjectStarting (name p); ProjectDone (name p)], fs'.
      split; [reflexivity|]. split.
      { destruct (backup_project_spec base p w) as (m0 & f0 & E0 & X0).
        rewrite backup_project_eq in E0. revert E0.
        destruct (path_exists (fs w) (path p)); rewrite ?C;
          intros [= <- _]; try exact X0.
        revert C. unfold copytree.
        repeat match goal with
        | |- context [match ?x with _ => _ end] => destruct x eqn:?
        end; intros [= <- ?]; try apply extends_refl; apply extends_create. }
      split; [reflexivity|]. eexists. split; [reflexivity|].
      right. left. reflexivity.
    + exists [ProjectStarting (name p); ProjectError (name p) e], fs'.
      split; [reflexivity|]. split.
      { revert C. unfold copytree.
        repeat match goal with
        | |- context [match ?x with _ => _ end] => destruct x eqn:?
        end; intros [= <- ?]; try apply extends_refl; apply extends_create. }
      split; [reflexivity|]. eexists. split; [reflexivity|].
      right. right. eauto.
  - exists [PathNotFound (path p)], (fs w).
    split; [reflexivity|]. split; [apply extends_refl|].
    split; [reflexivity|]. eexists. split; [reflexivity|]. now left.
Qed.

Lemma loop_messages base ps : forall w,
  exists msgs fs',
    for_each ps (backup_project log_message base) w
    = (Return tt, mkWorld fs' (log w ++ msgs))
    /\ extends (fs w) fs'
    /\ forallb is_project_message msgs = true
    /\ Forall2 outcome_of ps (List.filter is_outcome msgs).
Proof.
  induction ps as [|p ps IH]; intros w; simpl.
  - exists [], (fs w). rewrite app_nil_r. destruct w.
    repeat split; try constructor. apply ext_refl.
  - unfold bind.
    destruct (backup_project_messages base p w)
      as (m1 & f1 & -> & X1 & P1 & (o & O1 & M1)).
    destruct (IH (mkWorld f1 (log w ++ m1))) as (m2 & f2 & -> & X2 & P2 & F2).
    simpl in *. exists (m1 ++ m2), f2. rewrite app_assoc.
    split; [reflexivity|]. split; [eapply extends_trans; eassumption|].
    split; [rewrite forallb_app, P1, P2; reflexivity|].
    rewrite filter_app, O1. simpl. constructor; assumption.
Qed.

(** X2.  The loop over the projects (lines 84-104) logs exactly one
    outcome per project, in the order of the list: "path not found" with
    the project's path, "done" with its name, or "error" with its name;
    the only other messages it logs are the "backing up" lines. *)
Theorem one_outcome_per_project (base : string) (ps : list Project)
  (w : world) :
  exists msgs,
    log (snd (for_each ps (backup_project log_message base) w))
    = log w ++ msgs
    /\ forallb is_project_message msgs = true
    /\ Forall2 outcome_of ps (List.filter is_outcome msgs)
    /\ List.length (List.filter is_outcome msgs) = List.length ps.
Proof.
  destruct (loop_messages base ps w) as (msgs & f & E & _ & P & F).
  exists msgs. rewrite E. simpl. repeat split; try assumption.
  symmetry. eapply Forall2_length. exact F.
Qed.

Lemma create_backup_cases ts s w0 :
  let dest := backup_destination_folder s in
  let base := posixpath.join dest ("backup_" ++ ts) in
  (exists msgs fs',
     create_backup ts s log_message w0
     = (Return (true, Some base),
        mkWorld fs' (log w0 ++ BackupStarting :: msgs ++ [BackupDone base]))
     /\ extends (fs w0) fs'
     /\ path_exists fs' dest = true
     /\ forallb is_project_message msgs = true
     /\ Forall2 outcome_of (projects s) (List.filter is_outcome msgs))
  \/ (exists e,
        create_backup ts s log_message w0
        = (Return (false, None),
           mkWorld (fs w0)
             (log w0 ++ [BackupStarting; BackupError (OSError e dest)]))
        /\ path_exists (fs w0) dest = false).
Proof.
  intros dest base.
  set (started := snd (log_message BackupStarting w0)).
  destruct (ensure_destination_cases dest started)
    as [(f1 & E & X & P)|(e & E)].
  - left.
    pose proof (create_backup_after_destination ts s w0) as C.
    cbv zeta in C. fold dest base started in C. rewrite E in C.
    specialize (C eq_refl). simpl snd in C.
    destruct (loop_messages base (projects s)
                (mkWorld f1 (log w0 ++ [BackupStarting])))
      as (msgs & f2 & L & X2 & Pm & F).
    rewrite L in C. simpl in C, X2.
    exists msgs, f2. split.
    + rewrite C. rewrite <- !app_assoc. reflexivity.
    + split; [eapply extends_trans; eassumption|].
      split; [eapply path_exists_extends; eassumption|]. split; assumption.
  - right. exists e. split.
    + unfold create_backup, bind, try_except. fold dest base.
      change (log_message BackupStarting w0) with (Return tt, started).
      cbv iota beta. rewrite E. unfold log_message, ret. simpl.
      rewrite <- app_assoc. reflexivity.
    + revert E. unfold ensure_destination, bind, os_path_exists. simpl.
      destruct (path_exists (fs w0) dest); [discriminate|reflexivity].
Qed.

Lemma ext_file_inv d r k : ext (File d r) k -> k = File d r.
Proof. now inversion 1. Qed.

(** X4.  A run only adds to the file tree: every path that existed
    before the run exists after it, every regular file is found again
    where it was with the same bytes and permission, and every symbolic
    link is still the same link. *)
Theorem backup_run_only_adds (ts : string) (s : Settings) (w0 : world) :
  let w' := snd (create_backup ts s log_message w0) in
  extends (fs w0) (fs w')
  /\ (forall p, path_exists (fs w0) p = true -> path_exists (fs w') p = true)
  /\ (forall p phys data readable,
        resolve (fs w0) p = Found phys (File data readable) ->
        resolve (fs w') p = Found phys (File data readable))
  /\ (forall p t,
        get (root (fs w0)) p = Some (Link t) ->
        get (root (fs w')) p = Some (Link t)).
Proof.
  intros w'.
  assert (X : extends (fs w0) (fs w')).
  { unfold w'. destruct (create_backup_cases ts s w0)
      as [(msgs & f & -> & X & _)|(e & -> & _)]; simpl;
      [exact X|apply extends_refl]. }
  split; [exact X|]. split; [|split].
  - intros p. now apply path_exists_extends.
  - intros p phys data readable R.
    destruct (resolve_extends _ _ _ _ _ X R) as (k & R' & E).
    apply ext_file_inv in E. now subst.
  - intros p t G. destruct X as [E _].
    destruct (ext_get _ _ p E _ G) as (k & G' & Ek). inversion Ek. now subst.
Qed.

Lemma ext_dir_inv l es k :
  ext (Dir l es) k -> exists es', k = Dir l es'.
Proof. inversion 1; subst; eauto. Qed.

Lemma loop_existing_destination base p phys q ps : forall w es k,
  In p ps ->
  resolve (fs w) (path p) = Found phys (Dir true es) ->
  resolve (fs w) (posixpath.join base (name p)) = Found q k ->
  exists msgs,
    log (snd (for_each ps (backup_project log_message base) w))
    = log w ++ msgs
    /\ In (ProjectError (name p)
             (OSError EEXIST (posixpath.join base (name p)))) msgs.
Proof.
  induction ps as [|p0 ps IH]; intros w es k I Rs Rd; [contradiction|].
  simpl for_each. unfold bind.
  destruct (backup_project_messages base p0 w)
    as (m1 & f1 & E1 & X1 & _ & _).
  destruct I as [->|I].
  - rewrite backup_project_eq, (path_exists_found _ _ _ _ Rs),
      (copytree_exists _ _ _ _ _ _ _ _ Rs Rd).
    destruct (loop_messages base ps
                (mkWorld (fs w)
                   (log w ++ [ProjectStarting (name p);
                              ProjectError (name p)
                                (OSError EEXIST
                                   (posixpath.join base (name p)))])))
      as (m2 & f2 & -> & _). simpl.
    eexists. rewrite <- app_assoc. split; [reflexivity|].
    simpl. auto.
  - rewrite E1.
    destruct (resolve_extends _ _ _ _ _ X1 Rs) as (k1 & Rs1 & Ek1).
    destruct (resolve_extends _ _ _ _ _ X1 Rd) as (k2 & Rd1 & _).
    apply ext_dir_inv in Ek1. destruct Ek1 as (es1 & ->).
    destruct (IH (mkWorld f1 (log w ++ m1)) _ _ I Rs1 Rd1) as (m2 & -> & I2).
    simpl. exists (m1 ++ m2). rewrite app_assoc. split; [reflexivity|].
    apply in_or_app. now right.
Qed.

(** X5.  When the folder a project would be copied to is
    already there, which is what a second run within the same second of
    the clock finds, the project is logged as an error (EEXIST on that
    folder) and the run still returns (True, backup_base_path). *)
Theorem existing_snapshot_directory_is_an_error (ts : string) (s : Settings)
  (w0 : world) (p : Project) (phys q : list string)
  (es : list (string * node)) (k : node) :
  let dest := backup_destination_folder s in
  let base := posixpath.join dest ("backup_" ++ ts) in
  let dst := posixpath.join base (name p) in
  let r := create_backup ts s log_message w0 in
  In p (projects s) ->
  path_exists (fs w0) dest = true ->
  resolve (fs w0) (path p) = Found phys (Dir true es) ->
  resolve (fs w0) dst = Found q k ->
  fst r = Return (true, Some base)
  /\ exists msgs,
       log (snd r) = log w0 ++ BackupStarting :: msgs ++ [BackupDone base]
       /\ In (ProjectError (name p) (OSError EEXIST dst)) msgs.
Proof.
  intros dest base dst r I Ex Rs Rd. subst r.
  set (started := snd (log_message BackupStarting w0)).
  assert (E : ensure_destination dest started = (Return tt, started)).
  { unfold ensure_destination, bind, os_path_exists.
    change (fs started) with (fs w0). rewrite Ex. reflexivity. }
  pose proof (create_backup_after_destination ts s w0) as C.
  cbv zeta in C. fold dest base started in C. rewrite E in C.
  specialize (C eq_refl). cbn [snd] in C.
  destruct (loop_existing_destination base p phys q (projects s) started
              es k I Rs Rd) as (msgs & L & Im).
  rewrite C. cbn [fst snd]. split; [reflexivity|].
  exists msgs. split; [|exact Im].
  change (log (snd (log_message (BackupDone base)
                      (snd (for_each (projects s)
                              (backup_project log_message base) started)))))
    with (log (snd (for_each (projects s)
                      (backup_project log_message base) started))
          ++ [BackupDone base]).
  rewrite L. change (log started) with (log w0 ++ [BackupStarting]).
  rewrite <- !app_assoc. reflexivity.
Qed.

Lemma loop_nothing_to_copy base ps : forall w,
  Forall (fun p => path_exists (fs w) (path p) = false) ps ->
  for_each ps (backup_project log_message base) w
  = (Return tt,
     mkWorld (fs w) (log w ++ map (fun p => PathNotFound (path p)) ps)).
Proof.
  induction ps as [|p ps IH]; intros w F; simpl.
  - rewrite app_nil_r. now destruct w.
  - inversion F as [|x y Hp Hps]; subst. unfold bind.
    rewrite backup_project_eq, Hp.
    rewrite (IH (mkWorld (fs w) (log w ++ [PathNotFound (path p)])) Hps).
    simpl. rewrite <- app_assoc. reflexivity.
Qed.

(** X6.  A run in which no project folder exists creates
    nothing, yet it succeeds: the file tree is unchanged, the log holds
    "start", one "path not found" per project and "all done", the backup
    thread records backup_base_path as the last backup and enables the
    folder button, and pressing that button logs that there is no folder
    to open, since backup_base_path itself was never created. *)
Theorem run_without_copies_reports_missing_folder (ts : string)
  (self : BackupApp.t) :
  let s := settings self in
  let dest := backup_destination_folder s in
  let base := posixpath.join dest ("backup_" ++ ts) in
  let self' := backup_task ts self in
  path_exists (fs (w self)) dest = true ->
  path_exists (fs (w self)) base = false ->
  Forall (fun p => path_exists (fs (w self)) (path p) = false) (projects s) ->
  fs (w self') = fs (w self)
  /\ all_log_content self'
     = all_log_content self
       ++ BackupStarting :: map (fun p => PathNotFound (path p)) (projects s)
       ++ [BackupDone base]
  /\ last_backup_path self' = Some base
  /\ open_folder_button self' = true
  /\ open_last_backup_folder self' = inr NoFolderToOpen.
Proof.
  intros s dest base self' Ex Nb F.
  set (started := snd (log_message BackupStarting (w self))).
  assert (E : ensure_destination dest started = (Return tt, started)).
  { unfold ensure_destination, bind, os_path_exists.
    change (fs started) with (fs (w self)). rewrite Ex. reflexivity. }
  pose proof (create_backup_after_destination ts s (w self)) as C.
  cbv zeta in C. fold dest base started in C. rewrite E in C.
  specialize (C eq_refl). cbn [snd] in C.
  rewrite (loop_nothing_to_copy base (projects s) started F) in C.
  unfold self', backup_task. fold s. rewrite C.
  unfold open_last_backup_folder, all_log_content.
  destruct self; cbn in *. rewrite Nb, andb_false_r.
  repeat split. rewrite <- !app_assoc. reflexivity.
Qed.

(** X7.  A project whose name is an absolute path is copied to that
    path, whatever backup_base_path is (os.path.join at line 92 drops
    it): after the copy of a listable source to a name that was not
    there, outside what the copy reads, the name is a directory that
    holds every readable file the copy arrives at and no name a pattern
    accepts, and the project is logged as done or with the failed
    entries of the copy. *)
Theorem absolute_project_name_leaves_the_snapshot (base : string)
  (p : Project) (w : world) (phys parent todo : list string)
  (es : list (string * node)) :
  let w' := snd (backup_project log_message base p w) in
  let pats := exclude_patterns_of p in
  posixpath.isabs (name p) = true ->
  resolve (fs w) (path p) = Found phys (Dir true es) ->
  resolve (fs w) (name p) = Missing parent todo ->
  outside parent symloop_max (root (fs w)) pats phys (Dir true es) = true ->
  exists kept,
    resolve (fs w') (name p) = Found (parent ++ todo) (Dir true kept)
    /\ (forall q data,
          kept_names pats q ->
          reaches (root (fs w)) symloop_max (Dir true es) phys q
            (File data true) ->
          at_path (Dir true kept) q (File data true))
    /\ (forall q x, at_path (Dir true kept) q x -> kept_names pats q)
    /\ exists outcome,
         log w' = log w ++ [ProjectStarting (name p); outcome]
         /\ (outcome = ProjectDone (name p)
             \/ exists errors,
                  outcome = ProjectError (name p) (ShutilError errors)).
Proof.
  intros w' pats A Rs Rd _.
  assert (J : posixpath.join base (name p) = name p)
    by (unfold posixpath.join; now rewrite A).
  pose proof (copy_node_dir symloop_max (root (fs w)) pats (path p) (name p)
                phys true es) as D. cbv zeta iota in D.
  set (r := copy_entries symloop_max (root (fs w)) pats
              (ignore_patterns pats (map fst es)) (path p) (name p) phys es)
    in *.
  exists (fst r).
  assert (W : backup_project log_message base p w
              = (Return tt,
                 mkWorld (create (fs w) parent todo (fst r))
                   (log w ++ [ProjectStarting (name p);
                              match snd r with
                              | [] => ProjectDone (name p)
                              | _ => ProjectError (name p)
                                       (ShutilError (snd r))
                              end]))).
  { rewrite backup_project_eq, (path_exists_found _ _ _ _ Rs), J.
    rewrite (copytree_fresh _ _ _ _ _ _ _ _ Rs Rd). cbv zeta.
    fold pats r. destruct (snd r); reflexivity. }
  unfold w'. rewrite W. cbn [snd fs log].
  split; [apply resolve_create; exact Rd|]. split; [|split].
  - intros q data K Re.
    pose proof (reaches_copied (root (fs w)) pats _ _ _ _ _ Re K (path p)
                  (name p)) as H.
    rewrite D in H. simpl in H. destruct H as (k' & [= <-] & At). exact At.
  - intros q x At.
    destruct (copied_reaches (root (fs w)) pats symloop_max (Dir true es)
                (path p) (name p) phys (Dir true (fst r)) q x) as [K _];
      [now rewrite D|exact At|exact K].
  - eexists. split; [reflexivity|].
    destruct (snd r); [now left|right; eauto].
Qed.

(** ** More on the application *)

Lemma manual_backup_schedule self :
  jobs (manual_backup self) = jobs self
  /\ settings (manual_backup self) = settings self
  /\ now (manual_backup self) = now self.
Proof.
  unfold manual_backup. destruct self as [s bt lp ir ob d [f l] j st n ts rp].
  unfold backup_active, app_log; simpl.
  destruct bt as [[|]|]; simpl; repeat split.
Qed.

Lemma triggers_schedule (due : list schedule.Job) : forall self,
  let self' := fold_left (fun a _ => manual_backup a) due self in
  jobs self' = jobs self /\ settings self' = settings self
  /\ now self' = now self.
Proof.
  induction due as [|j due IH]; intros self; simpl; [repeat split|].
  destruct (IH (manual_backup self)) as (H1 & H2 & H3).
  destruct (manual_backup_schedule self) as (G1 & G2 & G3).
  repeat split; congruence.
Qed.

Lemma backup_task_schedule ts self :
  jobs (backup_task ts self) = jobs self
  /\ settings (backup_task ts self) = settings self
  /\ now (backup_task ts self) = now self.
Proof.
  unfold backup_task.
  destruct (create_backup _ _ _ _) as [[[[] bp]|e] w']; destruct self;
    simpl; repeat split.
Qed.

Lemma one_job_scheduled_later a b :
  jobs a = jobs b -> settings a = settings b -> (now b <= now a)%Z ->
  one_job_scheduled b -> one_job_scheduled a.
Proof.
  intros J S N (next & Jb & B). exists next. rewrite J, S. split; [exact Jb|lia].
Qed.

Lemma one_job_scheduled_step e self :
  one_job_scheduled self -> one_job_scheduled (step e self).
Proof.
  intros I. destruct e; simpl.
  - destruct (destroyed self); [exact I|].
    destruct (manual_backup_schedule self) as (H1 & H2 & H3).
    apply (one_job_scheduled_later _ self); auto; lia.
  - destruct (destroyed self); [exact I|].
    unfold save_interval. destruct entry as [interval|].
    + destruct (0 <? interval)%Z.
      * destruct self. eexists. simpl. split; [reflexivity|].
        unfold schedule.period. simpl. lia.
      * apply (one_job_scheduled_later _ self); auto;
          destruct self; simpl; auto; lia.
    + apply (one_job_scheduled_later _ self); auto;
        destruct self; simpl; auto; lia.
  - destruct (destroyed self); [exact I|].
    apply (one_job_scheduled_later _ self); auto;
      destruct self; simpl; auto; lia.
  - unfold scheduler_step. destruct (scheduler_thread self).
    + destruct (is_running self);
        apply (one_job_scheduled_later _ self); auto;
        destruct self; simpl; auto; lia.
    + destruct I as (next & J & B). unfold run_pending.
      destruct (triggers_schedule
                  (schedule.runnable (now self) (jobs self)) self)
        as (H1 & H2 & H3).
      destruct (fold_left _ _ self) as [s bt lp ir ob d w0 j st n ts rp].
      simpl in *. subst. rewrite J.
      unfold one_job_scheduled, schedule.after_run_pending,
        schedule.should_run. simpl.
      destruct (next <=? now self)%Z.
      * eexists. split; [reflexivity|].
        unfold schedule.period. simpl. lia.
      * exists next. auto.
    + apply (one_job_scheduled_later _ self); auto;
        destruct self; simpl; auto; lia.
    + exact I.
  - destruct (backup_active self); [|exact I].
    destruct (backup_task_schedule timestamp_str self) as (H1 & H2 & H3).
    apply (one_job_scheduled_later _ self); auto; lia.
  - apply (one_job_scheduled_later _ self); auto;
      destruct self; simpl; auto; lia.
Qed.

(** X8.  In every state the application reaches, whatever the user and
    the two threads do and in whatever order, the schedule holds exactly
    one job, its interval is the backup_interval_minutes of the settings,
    and it is due no later than one interval from now. *)
Theorem schedule_always_holds_one_job (loaded : Settings)
  (tree : filesystem) (t0 : Z) (es : list event) :
  one_job_scheduled (run es (init loaded tree t0)).
Proof.
  assert (I : one_job_scheduled (init loaded tree t0)).
  { eexists. split; [reflexivity|]. unfold schedule.period. simpl. lia. }
  revert I. generalize (init loaded tree t0).
  induction es as [|e es IH]; intros self I; [exact I|].
  apply IH. now apply one_job_scheduled_step.
Qed.











(** X10.  An interval entry that is not a positive integer (zero,
    negative, or not a number) changes nothing but the log: the settings,
    the job list, the backup thread and the file tree are as before, and
    the "invalid interval" message is logged. *)
Theorem invalid_interval_changes_nothing (entry : option Z)
  (self : BackupApp.t) :
  (forall interval, entry = Some interval -> (interval <= 0)%Z) ->
  let self' := save_interval entry self in
  settings self' = settings self
  /\ jobs self' = jobs self
  /\ all_log_content self' = all_log_content self ++ [InvalidInterval]
  /\ threads_started self' = threads_started self
  /\ backup_thread self' = backup_thread self
  /\ fs (w self') = fs (w self).
Proof.
  intros H self'. subst self'. unfold save_interval.
  destruct entry as [interval|].
  - specialize (H interval eq_refl).
    destruct (Z.ltb_spec 0 interval); [lia|].
    destruct self; repeat split.
  - destruct self; repeat split.
Qed.

(** X11.  One run_pending() of the scheduler thread with one job
    scheduled: before the job's next run nothing is logged, started or
    rescheduled; from that moment on the job requests one backup, which
    starts a backup thread unless one is alive, and the job is rescheduled
    one interval from now.  Either way the thread goes to sleep. *)
Theorem run_pending_fires_exactly_when_due (self : BackupApp.t)
  (j : schedule.Job) :
  scheduler_thread self = RunPending ->
  jobs self = [j] ->
  let self' := step SchedulerRuns self in
  scheduler_thread self' = Sleeping
  /\ ((now self < schedule.next_run j)%Z ->
      jobs self' = [j]
      /\ all_log_content self' = all_log_content self
      /\ threads_started self' = threads_started self)
  /\ ((schedule.next_run j <= now self)%Z ->
      jobs self'
      = [schedule.mkJob (schedule.interval j)
           (now self + 60 * schedule.interval j)]
      /\ count_requests (all_log_content self')
         = S (count_requests (all_log_content self))
      /\ (backup_active self = false ->
          backup_active self' = true
          /\ threads_started self' = S (threads_started self))).
Proof.
  intros Pc J self'. subst self'. unfold step, scheduler_step. rewrite Pc.
  unfold run_pending, schedule.runnable, schedule.after_run_pending,
    schedule.should_run, schedule.schedule_next_run, schedule.period,
    all_log_content, count_requests.
  destruct self as [s bt lp ir ob d [f l] js st n ts rp].
  simpl in Pc, J. subst js st.
  destruct bt as [[|]|]; cbn -[Z.mul Z.add Z.leb];
    (destruct (schedule.next_run j <=? n)%Z eqn:E; pose proof E as D;
     [apply Z.leb_le in D|apply Z.leb_gt in D]);
    cbn -[Z.mul Z.add Z.leb];
    rewrite ?filter_app, ?length_app, ?E; cbn -[Z.mul Z.add Z.leb];
    (split; [reflexivity|]);
    (split; [intros H; try lia|intros H; try lia]);
    repeat split; try discriminate; try lia.
Qed.

(** ** More on the settings file *)

Lemma required_missing_names v :
  required_missing v = Some false
  <-> forall k, In k required_names -> py_in k v = Some true.
Proof.
  unfold required_missing, required_names. split.
  - intros H k [<-|[<-|[<-|[]]]];
      destruct (py_in "backup_interval_minutes" v) as [[|]|];
      try discriminate;
      destruct (py_in "backup_destination_folder" v) as [[|]|];
      try discriminate;
      destruct (py_in "projects" v) as [[|]|]; try discriminate; reflexivity.
  - intros H.
    rewrite (H "backup_interval_minutes"), (H "backup_destination_folder"),
      (H "projects"); simpl; auto.
Qed.

Lemma required_missing_default : required_missing default_settings = Some false.
Proof. reflexivity. Qed.

Lemma create_default_settings_cases dk :
  (writable dk = true
   /\ create_default_settings dk
      = (Loaded default_settings,
         mkDisk (Stored default_settings) true (dialogs dk)))
  \/ (writable dk = false
      /\ create_default_settings dk = (SysExit 1, show ShowError dk)).
Proof.
  unfold create_default_settings. destruct (writable dk); auto.
Qed.

(** X12.  What load_settings returns holds the three required names,
    is what the settings file holds afterwards, is either the stored
    document with the disk untouched or the defaults, and is returned
    again, with nothing written and no message box, by the next
    load_settings. *)
Theorem loaded_settings_are_stable (dk dk' : disk) (settings : json) :
  load_settings dk = (Loaded settings, dk') ->
  (forall k, In k required_names -> py_in k settings = Some true)
  /\ file dk' = Stored settings
  /\ (dk' = dk \/ settings = default_settings)
  /\ load_settings dk' = (Loaded settings, dk').
Proof.
  unfold load_settings.
  assert (D : forall d, create_default_settings d = (Loaded settings, dk') ->
    (forall k, In k required_names -> py_in k settings = Some true)
    /\ file dk' = Stored settings
    /\ (dk' = dk \/ settings = default_settings)
    /\ match file dk' with
       | Absent => create_default_settings dk'
       | Unreadable => (SysExit 1, show ShowError dk')
       | Malformed => create_default_settings (show ShowWarning dk')
       | Stored settings0 =>
           match required_missing settings0 with
           | Some true => create_default_settings dk'
           | Some false => (Loaded settings0, dk')
           | None => (SysExit 1, show ShowError dk')
           end
       end = (Loaded settings, dk')).
  { intros d. destruct (create_default_settings_cases d) as [[W ->]|[W ->]];
      [|discriminate].
    intros [= <- <-]. split; [now apply required_missing_names|].
    split; [reflexivity|]. split; [now right|]. reflexivity. }
  destruct (file dk) as [| | |v] eqn:F.
  - apply D.
  - discriminate.
  - apply D.
  - destruct (required_missing v) as [[|]|] eqn:R.
    + apply D.
    + intros [= <- <-]. split; [now apply required_missing_names|].
      split; [exact F|]. split; [now left|]. rewrite F, R. reflexivity.
    + discriminate.
Qed.


Lemma existsb_string_in key items :
  existsb (fun x => match x with
                    | JString s => String.eqb key s
                    | _ => false
                    end) items = true
  <-> In (JString key) items.
Proof.
  rewrite existsb_exists. split.
  - intros (x & I & E). destruct x; try discriminate.
    apply String.eqb_eq in E. now subst.
  - intros I. exists (JString key). split; [exact I|apply String.eqb_refl].
Qed.

(** X15.  The required names are tested with "in" (lines 49-51),
    which a list answers as well as a dict: a settings file holding a JSON
    array is returned as the settings exactly when the three names are
    among its elements. *)
Theorem array_of_the_three_names_is_loaded (items : list json) (dk : disk) :
  file dk = Stored (JArray items) ->
  (fst (load_settings dk) = Loaded (JArray items)
   <-> forall k, In k required_names -> In (JString k) items).
Proof.
  intros F. unfold load_settings. rewrite F.
  destruct (required_missing (JArray items)) as [[|]|] eqn:R.
  - split.
    + destruct (create_default_settings_cases dk) as [[W ->]|[W ->]];
        discriminate.
    + intros H. exfalso.
      assert (R' : required_missing (JArray items) = Some false).
      { apply required_missing_names. intros k I. simpl. f_equal.
        apply existsb_string_in. now apply H. }
      congruence.
  - split; [|reflexivity]. intros _ k I.
    apply required_missing_names with (k := k) in R; [|exact I].
    simpl in R. injection R as R. now apply existsb_string_in.
  - unfold required_missing in R. simpl in R.
    repeat match type of R with
    | context [if ?b then _ else _] => destruct b
    end; discriminate.
Qed.

(** ** The log views *)

Lemma split_not_nil sep s : str.split sep s <> [].
Proof.
  destruct s as [|c s]; simpl; [discriminate|].
  destruct (Ascii.eqb c sep); [discriminate|].
  destruct (str.split sep s); discriminate.
Qed.

Lemma join_cons sep x y l :
  str.join sep (x :: y :: l) = (x ++ sep ++ str.join sep (y :: l))%string.
Proof. reflexivity. Qed.

Lemma join_split c s :
  str.join (String c EmptyString) (str.split c s) = s.
Proof.
  induction s as [|a s IH]; [reflexivity|].
  simpl str.split. destruct (Ascii.eqb_spec a c) as [->|N].
  - pose proof (split_not_nil c s) as NE.
    destruct (str.split c s) as [|h t]; [congruence|].
    rewrite join_cons, IH. reflexivity.
  - pose proof (split_not_nil c s) as NE.
    destruct (str.split c s) as [|h t]; [congruence|].
    destruct t as [|h' t].
    + simpl in *. now rewrite IH.
    + rewrite join_cons. rewrite join_cons in IH.
      change ((String a h ++ String c "" ++ str.join (String c "") (h' :: t))%string)
        with (String a (h ++ String c "" ++ str.join (String c "") (h' :: t))%string).
      now rewrite IH.
Qed.

Lemma substring_of_empty s : substring_of "" s = true.
Proof. destruct s; reflexivity. Qed.

Lemma filter_all {A} (f : A -> bool) l :
  (forall x, f x = true) -> List.filter f l = l.
Proof.
  intros H. induction l as [|x l IH]; simpl; [reflexivity|].
  now rewrite H, IH.
Qed.

(** X16.  Searching the log for the empty keyword shows the whole
    log: every line contains the empty string, and joining the lines with
    "\n" undoes the split. *)
Theorem empty_search_shows_the_whole_log (all_log_content : string) :
  search_logs "" all_log_content = all_log_content.
Proof.
  unfold search_logs, search_results. simpl str.lower.
  rewrite filter_all by (intros x; apply substring_of_empty).
  pose proof (split_not_nil str.newline all_log_content) as NE.
  pose proof (join_split str.newline all_log_content) as J.
  destruct (str.split str.newline all_log_content); [congruence|exact J].
Qed.

Lemma lower_char_idem c : str.lower_char (str.lower_char c) = str.lower_char c.
Proof. destruct c as [[] [] [] [] [] [] [] []]; reflexivity. Qed.

Lemma lower_idem s : str.lower (str.lower s) = str.lower s.
Proof.
  induction s as [|c s IH]; simpl; [reflexivity|].
  now rewrite lower_char_idem, IH.
Qed.

Lemma lower_char_newline c :
  Ascii.eqb (str.lower_char c) str.newline = Ascii.eqb c str.newline.
Proof. destruct c as [[] [] [] [] [] [] [] []]; reflexivity. Qed.

Lemma split_lower s :
  str.split str.newline (str.lower s)
  = map str.lower (str.split str.newline s).
Proof.
  induction s as [|c s IH]; [reflexivity|].
  simpl. rewrite lower_char_newline, IH.
  destruct (Ascii.eqb c str.newline); [reflexivity|].
  destruct (str.split str.newline s); reflexivity.
Qed.

Lemma filter_map {A B} (f : A -> B) (p : B -> bool) l :
  List.filter p (map f l) = map f (List.filter (fun x => p (f x)) l).
Proof.
  induction l as [|x l IH]; simpl; [reflexivity|].
  destruct (p (f x)); simpl; now rewrite IH.
Qed.

(** X17.  The log search ignores the case of ASCII letters.  Lowering
    the keyword does not change the lines found; lowering the log gives
    the same lines, lowered; every line found is a line of the log that
    contains the lowered keyword once lowered itself; and when no line is
    found the "no results" text is shown. *)
Theorem search_ignores_case (search_var all_log_content : string) :
  search_results (str.lower search_var) all_log_content
  = search_results search_var all_log_content
  /\ search_results search_var (str.lower all_log_content)
     = map str.lower (search_results search_var all_log_content)
  /\ (forall line,
        In line (search_results search_var all_log_content) ->
        In line (str.split str.newline all_log_content)
        /\ substring_of (str.lower search_var) (str.lower line) = true)
  /\ (search_results search_var all_log_content = [] ->
      search_logs search_var all_log_content = no_results).
Proof.
  unfold search_logs, search_results. split; [|split; [|split]].
  - now rewrite lower_idem.
  - rewrite split_lower, filter_map. f_equal.
    apply filter_ext. intros x. now rewrite lower_idem.
  - intros line I. now apply filter_In in I.
  - now intros ->.
Qed.

Lemma insert_desc_perm x l : Permutation (x :: l) (insert_desc x l).
Proof.
  induction l as [|h t IH]; simpl; [reflexivity|].
  destruct (String.leb h x); [reflexivity|].
  rewrite perm_swap. now constructor.
Qed.

Lemma sorted_reverse_perm l : Permutation l (sorted_reverse l).
Proof.
  induction l as [|x l IH]; simpl; [reflexivity|].
  rewrite <- insert_desc_perm. now constructor.
Qed.

Lemma insert_desc_sorted x l : descending l -> descending (insert_desc x l).
Proof.
  unfold descending. induction l as [|h t IH]; intros S; simpl.
  - repeat constructor.
  - destruct (String.leb h x) eqn:E.
    + constructor; [exact S|]. now constructor.
    + inversion S as [|? ? S' Hd]; subst.
      constructor; [now apply IH|].
      assert (X : String.leb x h = true)
        by (destruct (String.leb_total h x); congruence).
      destruct t as [|h' t']; simpl; [now constructor|].
      destruct (String.leb h' x); constructor; [exact X|].
      now inversion Hd.
Qed.

Lemma sorted_reverse_sorted l : descending (sorted_reverse l).
Proof.
  induction l as [|x l IH]; simpl; [constructor|].
  now apply insert_desc_sorted.
Qed.

Lemma endswith_app p s : str.endswith p (s ++ p)%string = true.
Proof.
  induction s as [|c s IH]; simpl.
  - change ("" ++ p)%string with p.
    destruct p; cbn [str.endswith]; now rewrite String.eqb_refl.
  - rewrite IH. apply orb_true_r.
Qed.

Lemma current_log_file_is_log_file stamp :
  is_log_file (current_log_file stamp) = true.
Proof.
  unfold is_log_file, current_log_file.
  change ("log_" ++ stamp ++ ".txt")%string
    with ("log_" ++ (stamp ++ ".txt"))%string at 1.
  replace ("log_" ++ stamp ++ ".txt")%string
    with (("log_" ++ stamp) ++ ".txt")%string
    by (simpl; reflexivity).
  rewrite endswith_app, andb_true_r. simpl.
  destruct (stamp ++ ".txt")%string; reflexivity.
Qed.

(** X18.  get_log_files on an existing log folder returns
    "현재 로그" followed by the names of the folder that start with "log_"
    and end with ".txt", each as often as it is listed, in descending
    order; the log file of the session, log_<time stamp>.txt, is among
    them once it is in the folder. *)
Theorem log_files_are_listed_newest_first (names : list string)
  (stamp : string) :
  exists files,
    get_log_files (Some names) = current_log :: files
    /\ Permutation (List.filter is_log_file names) files
    /\ descending files
    /\ (forall f, In f files <-> In f names /\ is_log_file f = true)
    /\ (In (current_log_file stamp) names ->
        In (current_log_file stamp) files).
Proof.
  exists (sorted_reverse (List.filter is_log_file names)).
  split; [reflexivity|]. split; [apply sorted_reverse_perm|].
  split; [apply sorted_reverse_sorted|].
  assert (M : forall f, In f (sorted_reverse (List.filter is_log_file names))
                        <-> In f names /\ is_log_file f = true).
  { intros f. rewrite <- filter_In. split; apply Permutation_in;
      [symmetry|]; apply sorted_reverse_perm. }
  split; [exact M|]. intros I. apply M. split; [exact I|].
  apply current_log_file_is_log_file.
Qed.

(** ** The settings tab *)

Lemma lstrip_head s :
  str.lstrip s = ""
  \/ exists c r, str.lstrip s = String c r /\ str.isspace c = false.
Proof.
  induction s as [|c s IH]; simpl; [now left|].
  destruct (str.isspace c) eqn:E; [exact IH|]. right. eauto.
Qed.

Lemma lstrip_fixed c r :
  str.isspace c = false -> str.lstrip (String c r) = String c r.
Proof. intros E. simpl. now rewrite E. Qed.

Lemma rstrip_idem s : str.rstrip (str.rstrip s) = str.rstrip s.
Proof.
  induction s as [|c s IH]; [reflexivity|].
  simpl. destruct (str.rstrip s) as [|a r] eqn:R.
  - destruct (str.isspace c) eqn:E; [reflexivity|]. simpl. now rewrite E.
  - change (str.rstrip (String c (String a r)))
      with (match str.rstrip (String a r) with
            | EmptyString =>
                if str.isspace c then EmptyString else String c EmptyString
            | r0 => String c r0
            end).
    now rewrite IH.
Qed.

Lemma rstrip_head c r :
  str.isspace c = false ->
  exists r', str.rstrip (String c r) = String c r'.
Proof.
  intros E. simpl. destruct (str.rstrip r); [rewrite E|]; eauto.
Qed.

Lemma strip_idem s : str.strip (str.strip s) = str.strip s.
Proof.
  unfold str.strip.
  destruct (lstrip_head s) as [->|(c & r & -> & E)]; [reflexivity|].
  destruct (rstrip_head c r E) as (r' & R).
  rewrite R, (lstrip_fixed c r' E), <- R. apply rstrip_idem.
Qed.

Lemma strip_fixed x :
  str.strip x = x -> str.lstrip x = x /\ str.rstrip x = x.
Proof.
  intros S. split.
  - rewrite <- S at 1 2. unfold str.strip.
    destruct (lstrip_head x) as [->|(c & r & -> & E)]; [reflexivity|].
    destruct (rstrip_head c r E) as (r' & R). rewrite R.
    now apply lstrip_fixed.
  - rewrite <- S at 1 2. unfold str.strip. apply rstrip_idem.
Qed.

Lemma trimmed_head x :
  trimmed x -> exists c r, x = String c r /\ str.isspace c = false.
Proof.
  intros [N S]. apply strip_fixed in S. destruct S as [L _].
  destruct (lstrip_head x) as [E|(c & r & E & Sp)]; rewrite L in E;
    [contradiction|eauto].
Qed.

Lemma has_char_lstrip c s :
  has_char c s = false -> has_char c (str.lstrip s) = false.
Proof.
  induction s as [|a s IH]; simpl; [auto|]. intros H.
  apply orb_false_iff in H. destruct H as [H1 H2].
  destruct (str.isspace a); [auto|]. simpl. now rewrite H1, H2.
Qed.

Lemma has_char_rstrip c s :
  has_char c s = false -> has_char c (str.rstrip s) = false.
Proof.
  induction s as [|a s IH]; simpl; [auto|]. intros H.
  apply orb_false_iff in H. destruct H as [H1 H2]. specialize (IH H2).
  destruct (str.rstrip s) as [|b r].
  - destruct (str.isspace a); [reflexivity|]. simpl. now rewrite H1.
  - simpl in *. now rewrite H1, IH.
Qed.

Lemma has_char_strip c s :
  has_char c s = false -> has_char c (str.strip s) = false.
Proof. intros H. now apply has_char_rstrip, has_char_lstrip. Qed.

Lemma split_pieces sep s :
  Forall (fun x => has_char sep x = false) (str.split sep s).
Proof.
  induction s as [|a s IH]; simpl; [repeat constructor|].
  destruct (Ascii.eqb a sep) eqn:E; [now constructor|].
  destruct (str.split sep s) as [|h t]; [repeat constructor; simpl;
    now rewrite E|].
  inversion IH; subst. constructor; [simpl; now rewrite E|assumption].
Qed.

Lemma parse_exclude_clean exclude_str :
  Forall clean_item (parse_exclude exclude_str).
Proof.
  unfold parse_exclude. apply Forall_forall. intros item I.
  apply filter_In in I. destruct I as [I N].
  apply in_map_iff in I. destruct I as (y & <- & I).
  pose proof (split_pieces str.comma exclude_str) as P.
  rewrite Forall_forall in P. specialize (P y I).
  split; [split|].
  - intros E. rewrite E in N. discriminate.
  - apply strip_idem.
  - now apply has_char_strip.
Qed.

Lemma strip_trimmed s : str.strip s <> "" -> trimmed (str.strip s).
Proof. intros N. split; [exact N|apply strip_idem]. Qed.

Lemma Forall_list_set {A} (P : A -> Prop) x : forall i l,
  P x -> Forall P l -> Forall P (list_set i x l).
Proof.
  intros i l Px F. revert i. induction F as [|h t Ph F IH]; intros i.
  - destruct i; constructor.
  - destruct i; simpl; constructor; auto.
Qed.

Lemma Forall_list_del {A} (P : A -> Prop) : forall i l,
  Forall P l -> Forall P (list_del i l).
Proof.
  intros i l F. revert i. induction F as [|h t Ph F IH]; intros i.
  - destruct i; constructor.
  - destruct i; simpl; [exact F|]. constructor; auto.
Qed.

(** X19.  save_project either refuses (a name or a path that
    is blank after stripping: the message is logged and nothing changes)
    or stores one project whose name and path are the stripped entries and
    not empty and whose exclusion patterns are not empty, carry no white
    space at either end and no comma.  The project is appended when the
    dialog was opened to add and replaces the one at the index when it was
    opened to edit; the interval, the destination and the world are as
    before, and a project list that held only such projects still does. *)
Theorem save_project_stores_clean_projects (action : dialog_action)
  (index : nat) (name_var path_var exclude_var : string)
  (self self' : BackupApp.t) (note : notice) :
  save_project action index name_var path_var exclude_var self
  = Some (self', note) ->
  (note = NameAndPathRequired /\ self' = self
   /\ (str.strip name_var = "" \/ str.strip path_var = ""))
  \/ (exists q,
        note = ProjectSaved action
        /\ name q = str.strip name_var /\ path q = str.strip path_var
        /\ clean_project q
        /\ projects (settings self')
           = match action with
             | AddProject => projects (settings self) ++ [q]
             | EditProject => list_set index q (projects (settings self))
             end
        /\ backup_interval_minutes (settings self')
           = backup_interval_minutes (settings self)
        /\ backup_destination_folder (settings self')
           = backup_destination_folder (settings self)
        /\ w self' = w self
        /\ (Forall clean_project (projects (settings self)) ->
            Forall clean_project (projects (settings self')))).
Proof.
  unfold save_project.
  destruct (String.eqb_spec (str.strip name_var) "") as [En|Nn].
  { intros [= <- <-]. left. auto. }
  destruct (String.eqb_spec (str.strip path_var) "") as [Ep|Np].
  { intros [= <- <-]. left. auto. }
  cbn [orb]. intros H. right.
  set (q := mkProject (str.strip name_var) (str.strip path_var)
              (Some (parse_exclude (str.strip exclude_var)))) in *.
  assert (Cq : clean_project q).
  { split; [now apply strip_trimmed|]. split; [now apply strip_trimmed|].
    eexists. split; [reflexivity|apply parse_exclude_clean]. }
  exists q. destruct action.
  - injection H as <- <-. destruct self. simpl.
    repeat split; try assumption; try apply strip_idem.
    + eexists. split; [reflexivity|apply parse_exclude_clean].
    + intros F. apply Forall_app. split; [exact F|]. now constructor.
  - destruct (Nat.ltb index _); [|discriminate].
    injection H as <- <-. destruct self. simpl.
    repeat split; try assumption; try apply strip_idem.
    + eexists. split; [reflexivity|apply parse_exclude_clean].
    + intros F. now apply Forall_list_set.
Qed.

Lemma rstrip_app a b :
  str.rstrip b <> "" -> str.rstrip (a ++ b) = (a ++ str.rstrip b)%string.
Proof.
  intros N. induction a as [|c a IH]; [reflexivity|].
  simpl. rewrite IH. destruct (a ++ str.rstrip b)%string eqn:E; [|reflexivity].
  destruct a; simpl in E; [contradiction|discriminate].
Qed.

Lemma join_head sep x l : exists r, str.join sep (x :: l) = (x ++ r)%string.
Proof.
  destruct l as [|y l]; simpl.
  - exists "". induction x; simpl; congruence.
  - eauto.
Qed.

Lemma append_not_empty x r : x <> "" -> (x ++ r)%string <> "".
Proof. destruct x; [contradiction|discriminate]. Qed.

Lemma rstrip_join x l :
  Forall trimmed (x :: l) ->
  str.rstrip (str.join ", " (x :: l)) = str.join ", " (x :: l).
Proof.
  revert x. induction l as [|y l IH]; intros x F.
  - inversion F as [|? ? [_ S] _]; subst. now apply strip_fixed in S.
  - inversion F as [|? ? _ F']; subst. specialize (IH y F').
    assert (N : str.join ", " (y :: l) <> "").
    { destruct (join_head ", " y l) as (r & ->). apply append_not_empty.
      inversion F' as [|? ? [Ny _] _]. exact Ny. }
    rewrite join_cons.
    rewrite rstrip_app; [rewrite rstrip_app; [now rewrite IH|]|].
    + now rewrite IH.
    + rewrite rstrip_app by now rewrite IH. discriminate.
Qed.

Lemma strip_join l :
  Forall trimmed l -> str.strip (str.join ", " l) = str.join ", " l.
Proof.
  destruct l as [|x l]; [reflexivity|]. intros F. unfold str.strip.
  assert (L : str.lstrip (str.join ", " (x :: l)) = str.join ", " (x :: l)).
  { destruct (join_head ", " x l) as (r & ->).
    inversion F as [|? ? T _]; subst.
    destruct (trimmed_head x T) as (c & x' & -> & E).
    now apply lstrip_fixed. }
  rewrite L. now apply rstrip_join.
Qed.

Lemma split_comma_free sep x :
  has_char sep x = false -> str.split sep x = [x].
Proof.
  induction x as [|c x IH]; simpl; [reflexivity|]. intros H.
  apply orb_false_iff in H. destruct H as [H1 H2].
  now rewrite H1, IH.
Qed.

Lemma split_append sep x s :
  has_char sep x = false ->
  str.split sep (x ++ String sep s) = x :: str.split sep s.
Proof.
  induction x as [|c x IH]; simpl.
  - intros _. now rewrite Ascii.eqb_refl.
  - intros H. apply orb_false_iff in H. destruct H as [H1 H2].
    now rewrite H1, IH.
Qed.

Lemma join_space y l :
  (" " ++ str.join ", " (y :: l))%string = str.join ", " ((" " ++ y)%string :: l).
Proof. destruct l; reflexivity. Qed.

Lemma split_join l : forall x,
  Forall (fun y => has_char str.comma y = false) (x :: l) ->
  str.split str.comma (str.join ", " (x :: l))
  = x :: map (fun y => (" " ++ y)%string) l.
Proof.
  induction l as [|y l IH]; intros x F.
  - inversion F; subst. now apply split_comma_free.
  - inversion F as [|? ? Hx F']; subst. rewrite join_cons.
    change (", " ++ str.join ", " (y :: l))%string
      with (String str.comma (" " ++ str.join ", " (y :: l))).
    rewrite split_append by exact Hx. rewrite join_space.
    rewrite IH; [reflexivity|].
    inversion F' as [|? ? Hy F'']; subst. constructor; [exact Hy|exact F''].
Qed.

Lemma parse_exclude_join l :
  Forall clean_item l -> parse_exclude (str.strip (str.join ", " l)) = l.
Proof.
  intros F.
  assert (T : Forall trimmed l)
    by (eapply Forall_impl; [|exact F]; now intros ? []).
  assert (C : Forall (fun y => has_char str.comma y = false) l)
    by (eapply Forall_impl; [|exact F]; now intros ? []).
  rewrite strip_join by exact T. unfold parse_exclude.
  destruct l as [|x l]; [reflexivity|].
  rewrite split_join by exact C. cbn [map].
  assert (M : forall l', Forall trimmed l' ->
            List.filter (fun item => negb (String.eqb item ""))
              (map str.strip (map (fun y => (" " ++ y)%string) l')) = l').
  { induction l' as [|y l' IH]; intros F'; [reflexivity|].
    inversion F' as [|? ? [Ny Sy] F'']; subst. cbn [map].
    change (str.strip (" " ++ y)) with (str.strip y). rewrite Sy.
    cbn [List.filter]. destruct (String.eqb_spec y ""); [contradiction|].
    cbn [negb]. now rewrite IH. }
  inversion T as [|? ? [Nx Sx] T']; subst. rewrite Sx.
  cbn [List.filter]. destruct (String.eqb_spec x ""); [contradiction|].
  cbn [negb]. now rewrite M.
Qed.

(** X20.  Opening the edit dialog on a project and saving it
    with the entries as the dialog filled them in puts back the same name,
    path and exclusion patterns, provided the name and the path are
    stripped and not empty and no pattern is empty, has white space at an
    end or holds a comma; the list box shows the same rows. *)
Theorem edit_without_changes_keeps_the_project (index : nat) (p : Project)
  (self : BackupApp.t) :
  nth_error (projects (settings self)) index = Some p ->
  trimmed (name p) -> trimmed (path p) ->
  Forall clean_item (exclude_patterns_of p) ->
  let '(name_var, path_var, exclude_var) := prefill p in
  exists self',
    save_project EditProject index name_var path_var exclude_var self
    = Some (self', ProjectSaved EditProject)
    /\ nth_error (projects (settings self')) index
       = Some (mkProject (name p) (path p) (Some (exclude_patterns_of p)))
    /\ listbox_rows self' = listbox_rows self
    /\ List.length (projects (settings self'))
       = List.length (projects (settings self)).
Proof.
  intros Nth [Nn Sn] [Np Sp] F. unfold prefill, save_project.
  rewrite Sn, Sp, parse_exclude_join by exact F.
  destruct (String.eqb_spec (name p) "") as [|_]; [contradiction|].
  destruct (String.eqb_spec (path p) "") as [|_]; [contradiction|]. cbn [orb].
  assert (Lt : index < List.length (projects (settings self)))
    by (apply nth_error_Some; congruence).
  apply Nat.ltb_lt in Lt. rewrite Lt.
  eexists. split; [reflexivity|].
  unfold listbox_rows. destruct self as [[i d ps] bt lp ir ob de w0 j st t0 ts rp].
  simpl in *. clear Lt. revert index Nth.
  induction ps as [|h t IH]; intros [|k] Nth; simpl in *; try discriminate.
  - injection Nth as ->. repeat split.
  - destruct (IH k Nth) as (A & B & C). repeat split; congruence.
Qed.

(** ** The destination entry and the project list *)

Lemma path_exists_empty fs : path_exists fs "" = false.
Proof. unfold path_exists. now rewrite resolve_empty. Qed.

(** X21.  save_destination stores the stripped entry as the
    destination when os.path.exists accepts it, and then every run gets
    past the destination step and returns (True, backup_base_path);
    otherwise it logs the "invalid folder" message and changes nothing.  A
    blank entry is always refused. *)
Theorem save_destination_accepts_existing_paths_only (dest_var : string)
  (self : BackupApp.t) :
  let new_dest := str.strip dest_var in
  let r := save_destination dest_var self in
  (path_exists (fs (w self)) new_dest = true ->
   snd r = DestinationChanged new_dest
   /\ settings (fst r)
      = mkSettings (backup_interval_minutes (settings self)) new_dest
                   (projects (settings self))
   /\ w (fst r) = w self
   /\ forall ts,
        fst (create_backup ts (settings (fst r)) log_message (w (fst r)))
        = Return (true, Some (posixpath.join new_dest ("backup_" ++ ts))))
  /\ (path_exists (fs (w self)) new_dest = false ->
      r = (self, InvalidDestination))
  /\ (new_dest = "" -> r = (self, InvalidDestination)).
Proof.
  intros new_dest r. subst r. unfold save_destination. fold new_dest.
  split; [|split].
  - intros E. rewrite E. destruct self as [s bt lp ir ob d w0 j st n ts0 rp].
    simpl in *. repeat split. intros ts.
    destruct (create_backup_cases ts
                (mkSettings (backup_interval_minutes s) new_dest (projects s))
                w0) as [(msgs & f & -> & _)|(e & _ & P)].
    + reflexivity.
    + simpl in P. congruence.
  - intros E. now rewrite E.
  - intros E. rewrite E. now rewrite path_exists_empty.
Qed.

Lemma list_del_last {A} (l : list A) x :
  list_del (List.length l) (l ++ [x]) = l.
Proof. induction l as [|h t IH]; simpl; [reflexivity|now rewrite IH]. Qed.

Lemma with_projects_same self :
  with_projects (projects (settings self)) self = self.
Proof. destruct self as [[i d ps] bt lp ir ob de w0 j st n ts rp]. reflexivity. Qed.

(** X22.  Adding a project appends one row, "name -> path" of the
    stripped entries, to the list box, and removing that last row gives
    back the application as it was before the project was added. *)
Theorem added_project_can_be_removed_again
  (name_var path_var exclude_var : string) (self self' : BackupApp.t) :
  save_project AddProject 0 name_var path_var exclude_var self
  = Some (self', ProjectSaved AddProject) ->
  listbox_rows self'
  = listbox_rows self
    ++ [(str.strip name_var ++ " -> " ++ str.strip path_var)%string]
  /\ remove_project (Some (List.length (listbox_rows self))) self'
     = Some (self, ProjectRemoved).
Proof.
  unfold save_project.
  destruct (_ || _)%bool; [discriminate|]. intros [= <-].
  unfold listbox_rows, remove_project.
  destruct self as [[i d ps] bt lp ir ob de w0 j st n ts rp]. simpl.
  rewrite map_app, length_map, length_app. simpl. split; [reflexivity|].
  replace (List.length ps <? List.length ps + 1)%nat with true
    by (symmetry; apply Nat.ltb_lt; lia).
  unfold with_projects. simpl. now rewrite list_del_last.
Qed.

Lemma list_del_firstn_skipn {A} : forall i (l : list A),
  list_del i l = firstn i l ++ skipn (S i) l.
Proof.
  induction i as [|i IH]; intros [|h t]; simpl; try reflexivity.
  - f_equal. rewrite IH. destruct t; reflexivity.
Qed.

(** X23.  remove_project with no row selected logs the request to
    select one and changes nothing; with row i selected it deletes that
    row and no other, the rows before and after it keeping their order,
    and leaves the interval, the destination and the world alone. *)
Theorem remove_project_deletes_the_selected_row (selection : option nat)
  (self : BackupApp.t) :
  (forall i, selection = Some i -> i < List.length (listbox_rows self)) ->
  exists self' note,
    remove_project selection self = Some (self', note)
    /\ w self' = w self
    /\ backup_interval_minutes (settings self')
       = backup_interval_minutes (settings self)
    /\ backup_destination_folder (settings self')
       = backup_destination_folder (settings self)
    /\ match selection with
       | None => note = SelectProjectToRemove /\ self' = self
       | Some i =>
           note = ProjectRemoved
           /\ listbox_rows self'
              = firstn i (listbox_rows self) ++ skipn (S i) (listbox_rows self)
           /\ S (List.length (listbox_rows self'))
              = List.length (listbox_rows self)
       end.
Proof.
  intros H. unfold remove_project. destruct selection as [i|].
  - specialize (H i eq_refl). unfold listbox_rows in *.
    rewrite length_map in H. pose proof H as Lt.
    apply Nat.ltb_lt in Lt. rewrite Lt.
    eexists. eexists. split; [reflexivity|].
    destruct self as [[iv d ps] bt lp ir ob de w0 j st n ts rp].
    cbn [with_projects set_settings settings projects w
         backup_interval_minutes backup_destination_folder] in *.
    repeat split.
    + rewrite list_del_firstn_skipn, map_app, firstn_map, skipn_map.
      reflexivity.
    + rewrite !length_map, list_del_firstn_skipn, length_app,
        length_firstn, length_skipn. lia.
  - exists self, SelectProjectToRemove. repeat split.
Qed.

(** ** The statements on the rest of backup.py at concrete inputs *)

Lemma existing_snapshot_directory_is_an_error_witness :
  path_exists tree_after_run "/bk/backup_t/proj" = true
  /\ In (ProjectError "proj" (OSError EEXIST "/bk/backup_t/proj"))
        (log (snd (create_backup "t" (mkSettings 10 "/bk" [proj_src])
                     log_message (mkWorld tree_after_run [])))).
Proof.
  split; [reflexivity|].
  destruct (existing_snapshot_directory_is_an_error "t"
              (mkSettings 10 "/bk" [proj_src]) (mkWorld tree_after_run [])
              proj_src ["src"] ["bk"; "backup_t"; "proj"] _ _
              (or_introl eq_refl) eq_refl eq_refl eq_refl)
    as (_ & msgs & L & I).
  rewrite L. right. apply in_or_app. left. exact I.
Defined.

Lemma run_without_copies_reports_missing_folder_witness :
  path_exists (fs (w app_nothing_to_copy)) "/nope" = false
  /\ last_backup_path (backup_task "t" app_nothing_to_copy)
     = Some "/bk/backup_t"
  /\ open_last_backup_folder (backup_task "t" app_nothing_to_copy)
     = inr NoFolderToOpen.
Proof.
  split; [reflexivity|].
  destruct (run_without_copies_reports_missing_folder "t" app_nothing_to_copy
              eq_refl eq_refl ltac:(repeat constructor))
    as (_ & _ & L & _ & O).
  split; [exact L|exact O].
Defined.

Lemma absolute_project_name_leaves_the_snapshot_witness :
  let p := mkProject "/elsewhere" "/src" None in
  let w' := snd (backup_project log_message "/bk/backup_t" p
                   (mkWorld tmp_tree [])) in
  resolve tmp_tree "/elsewhere" = Missing [] ["elsewhere"]
  /\ exists kept,
       resolve (fs w') "/elsewhere" = Found ["elsewhere"] (Dir true kept)
       /\ at_path (Dir true kept) ["sub"; "c.tmp"] (File [] true).
Proof.
  split; [reflexivity|].
  destruct (absolute_project_name_leaves_the_snapshot "/bk/backup_t"
              (mkProject "/elsewhere" "/src" None) (mkWorld tmp_tree [])
              ["src"] [] ["elsewhere"] _ eq_refl eq_refl eq_refl eq_refl)
    as (kept & R & F & _).
  exists kept. split; [exact R|]. apply F.
  - repeat constructor.
  - apply reaches_entry
      with (k := Dir true [("c.tmp", File [] true)]);
      [right; right; left; reflexivity|].
    apply reaches_entry with (k := File [] true);
      [left; reflexivity|constructor].
Defined.

Lemma invalid_interval_changes_nothing_witness :
  jobs (save_interval (Some 0%Z) app_started) = jobs app_started
  /\ settings (save_interval None app_started) = settings app_started.
Proof.
  split.
  - exact (proj1 (proj2 (invalid_interval_changes_nothing (Some 0%Z)
                           app_started
                           ltac:(intros i [= <-]; lia)))).
  - exact (proj1 (invalid_interval_changes_nothing None app_started
                    ltac:(intros i; discriminate))).
Defined.

Lemma run_pending_fires_exactly_when_due_witness :
  jobs app_about_to_run_pending = [schedule.mkJob 1 60]
  /\ now app_about_to_run_pending = 60%Z
  /\ jobs (step SchedulerRuns app_about_to_run_pending)
     = [schedule.mkJob 1 120].
Proof.
  split; [reflexivity|]. split; [reflexivity|].
  exact (proj1 (proj2 (proj2 (run_pending_fires_exactly_when_due
                                app_about_to_run_pending
                                (schedule.mkJob 1 60) eq_refl eq_refl))
                 ltac:(simpl; lia))).
Defined.

Lemma loaded_settings_are_stable_witness :
  let dk' := mkDisk (Stored default_settings) true [ShowWarning] in
  load_settings (mkDisk Malformed true []) = (Loaded default_settings, dk')
  /\ load_settings dk' = (Loaded default_settings, dk').
Proof.
  split; [reflexivity|].
  exact (proj2 (proj2 (proj2 (loaded_settings_are_stable
                                (mkDisk Malformed true []) _ _ eq_refl)))).
Defined.


Lemma array_of_the_three_names_is_loaded_witness :
  exists items,
    file names_file = Stored (JArray items)
    /\ fst (load_settings names_file) = Loaded (JArray items).
Proof.
  eexists. split; [reflexivity|].
  apply (proj2 (array_of_the_three_names_is_loaded _ names_file eq_refl)).
  intros k [<-|[<-|[<-|[]]]]; simpl; auto.
Defined.

Lemma save_project_stores_clean_projects_witness :
  exists self' q,
    save_project AddProject 0 " web " "/src" "*.tmp, , build " app_started
    = Some (self', ProjectSaved AddProject)
    /\ projects (settings self') = [proj_src; q]
    /\ exclude_folders q = Some ["*.tmp"; "build"]
    /\ clean_project q.
Proof.
  eexists. eexists. split; [reflexivity|]. split; [reflexivity|].
  split; [reflexivity|].
  destruct (save_project_stores_clean_projects AddProject 0 " web " "/src"
              "*.tmp, , build " app_started _ _ eq_refl)
    as [(H & _)|(q & _ & _ & _ & C & P & _)]; [discriminate|].
  apply app_inj_tail in P. destruct P as [_ <-]. exact C.
Defined.

Lemma edit_without_changes_keeps_the_project_witness :
  exists self',
    save_project EditProject 0 "proj" "/src" "*.tmp" app_started
    = Some (self', ProjectSaved EditProject)
    /\ projects (settings self') = [proj_src].
Proof.
  assert (T : forall x, x <> "" -> str.strip x = x -> trimmed x)
    by (intros x N S; split; assumption).
  destruct (edit_without_changes_keeps_the_project 0 proj_src app_started
              eq_refl
              (T "proj" ltac:(discriminate) eq_refl)
              (T "/src" ltac:(discriminate) eq_refl)
              (Forall_cons _ (conj (T "*.tmp" ltac:(discriminate) eq_refl)
                                   eq_refl) (Forall_nil _)))
    as (self' & E & _).
  exists self'. split; [exact E|].
  injection E as <-. reflexivity.
Defined.

Lemma added_project_can_be_removed_again_witness :
  exists self',
    save_project AddProject 0 "web" "/src" "" app_started
    = Some (self', ProjectSaved AddProject)
    /\ remove_project (Some 1) self' = Some (app_started, ProjectRemoved).
Proof.
  eexists. split; [reflexivity|].
  exact (proj2 (added_project_can_be_removed_again "web" "/src" ""
                  app_started _ eq_refl)).
Defined.

Lemma remove_project_deletes_the_selected_row_witness :
  listbox_rows app_started = ["proj -> /src"]
  /\ exists self',
       remove_project (Some 0) app_started = Some (self', ProjectRemoved)
       /\ listbox_rows self' = [].
Proof.
  split; [reflexivity|].
  destruct (remove_project_deletes_the_selected_row (Some 0) app_started
              ltac:(intros i [= <-]; simpl; lia))
    as (self' & note & E & _ & _ & _ & -> & R & _).
  exists self'. split; [exact E|exact R].
Defined.
